(** * Walroad ledger core: the [access_policy] and [collection] Move modules

    A shallow embedding of the two on-chain modules of the marketplace
    ([bunker_contracts::access_policy] and [bunker_contracts::collection])
    together with the properties of purchase and tip settlement, soft
    deletion, the authorization registry and the key-server entry point.

    Move aborts are modelled by an error result: an aborted transaction
    has no effect, so a failing call carries no state.  Objects handed to
    the runtime (transfers, shared objects, events) are collected in an
    effect log, in program order. *)

From stdpp Require Import gmap list.
From Stdlib Require Import NArith Lia.

Local Open Scope N_scope.

(** ** The Move runtime used by the two modules *)

Module move.

  (** [u8] and [u64] values are naturals; [u64] arithmetic aborts when the
      result leaves the range, as the Move VM does. *)
Abbreviation u8 := N (only parsing).
Abbreviation u64 := N (only parsing).
  (** A 32-byte account or object address, as its bytes. *)
Abbreviation address := (list N) (only parsing).
  (** [object::ID] wraps an address; [object::id_to_bytes] gives its bytes. *)
Abbreviation ID := (list N) (only parsing).
Abbreviation UID := (list N) (only parsing).

Definition MAX_U64 : N := 18446744073709551615.

  (** Modules whose abort codes can reach a caller of the two modules. *)
Inductive module_id :=
  | m_access_policy
  | m_collection
  | m_balance          (* sui::balance: ENonZero = 0, ENotEnough = 2 *)
  | m_dynamic_field.   (* sui::dynamic_field, under sui::table *)

Inductive failure :=
  | Abort (m : module_id) (code : N)
  | ArithmeticError
  | VectorIndexOutOfBounds.

Inductive Result (A : Type) :=
  | Ok (a : A)
  | Err (f : failure).
Arguments Ok {A} a.
Arguments Err {A} f.

Definition add_u64 (a b : u64) : Result u64 :=
    if a + b <=? MAX_U64 then Ok (a + b) else Err ArithmeticError.
Definition sub_u64 (a b : u64) : Result u64 :=
    if b <=? a then Ok (a - b) else Err ArithmeticError.
Definition mul_u64 (a b : u64) : Result u64 :=
    if a * b <=? MAX_U64 then Ok (a * b) else Err ArithmeticError.
Definition div_u64 (a b : u64) : Result u64 :=
    if b =? 0 then Err ArithmeticError else Ok (a / b).

  (** [vector::borrow]: aborts out of range. *)
Definition borrow {A} (v : list A) (i : nat) : Result A :=
    match v !! i with
    | Some x => Ok x
    | None => Err VectorIndexOutOfBounds
    end.

  (** [sui::table::Table<K, bool>] as a finite map. *)
Definition table_add (k : address) (v : bool) (t : gmap address bool)
    : Result (gmap address bool) :=
    match t !! k with
    | Some _ => Err (Abort m_dynamic_field 0)
    | None => Ok (<[k := v]> t)
    end.
Definition table_remove (k : address) (t : gmap address bool)
    : Result (gmap address bool) :=
    match t !! k with
    | Some _ => Ok (delete k t)
    | None => Err (Abort m_dynamic_field 1)
    end.
Definition table_contains (t : gmap address bool) (k : address) : bool :=
    bool_decide (is_Some (t !! k)).

Record TxContext := {
    sender : address;
    tx_hash : list u8;
    epoch_timestamp_ms : u64;
    ids_created : u64;
  }.

  (** A transaction in progress: its context and the effects emitted so
      far.  [E] is the type of effects of the module being run. *)
Record env (E : Type) := { ctx : TxContext; log : list E }.
Arguments ctx {E} _.
Arguments log {E} _.

Definition M (E A : Type) := env E -> Result (A * env E).

Definition ret {E A} (a : A) : M E A := fun s => Ok (a, s).
Definition bind {E A B} (m : M E A) (k : A -> M E B) : M E B :=
    fun s => match m s with
             | Ok (a, s') => k a s'
             | Err f => Err f
             end.
Definition fail {E A} (f : failure) : M E A := fun _ => Err f.
  (** A pure fallible step (arithmetic, borrow, table update). *)
Definition try {E A} (r : Result A) : M E A :=
    fun s => match r with Ok a => Ok (a, s) | Err f => Err f end.
  (** [assert!(cond, code)] *)
Definition assert {E} (cond : bool) (m : module_id) (code : N) : M E unit :=
    if cond then ret tt else fail (Abort m code).
Definition get_ctx {E} : M E TxContext := fun s => Ok (ctx s, s).
  (** [event::emit], [transfer::*]: append to the effect log. *)
Definition emit {E} (e : E) : M E unit :=
    fun s => Ok (tt, {| ctx := ctx s; log := log s ++ [e] |}).
  (** Run a callee of another module, embedding its effects. *)
Definition call {E1 E2 A} (inj : E1 -> E2) (m : M E1 A) : M E2 A :=
    fun s => match m {| ctx := ctx s; log := [] |} with
             | Ok (a, s') => Ok (a, {| ctx := ctx s'; log := log s ++ map inj (log s') |})
             | Err f => Err f
             end.

  (** [while (i < len) { body; i = i + 1 }] over a loop state [S].  The
      vectors indexed by these loops are lists, so the counter is a [nat];
      it stays below a vector length and cannot overflow. *)
Fixpoint while_lt {E S} (fuel : nat) (i len : nat)
      (body : nat -> S -> M E S) (s : S) : M E S :=
    match fuel with
    | O => ret s
    | Datatypes.S fuel' =>
        if (i <? len)%nat
        then bind (body i s) (while_lt fuel' (Datatypes.S i) len body)
        else ret s
    end.

Section object.
    (** [tx_context::derive_id], a native hash of the transaction digest
        and the number of ids created so far. *)
Variable derive_id : list u8 -> u64 -> address.

    (** [object::new] *)
Definition object_new {E} : M E UID :=
      fun s =>
        let c := ctx s in
        Ok (derive_id (tx_hash c) (ids_created c),
            {| ctx := {| sender := sender c; tx_hash := tx_hash c;
                         epoch_timestamp_ms := epoch_timestamp_ms c;
                         ids_created := ids_created c + 1 |};
               log := log s |}).
End object.

End move.

Import move.

Declare Scope move_scope.
Notation "'let*' x ':=' m 'in' k" := (bind m (fun x => k))
  (at level 10, x pattern, m at level 100, k at level 200) : move_scope.
Notation "m ';;' k" := (bind m (fun _ => k))
  (at level 100, k at level 200, right associativity) : move_scope.
Local Open Scope move_scope.

(** ** [bunker_contracts::access_policy] *)

Module access_policy.

Definition ENotAuthorized : u64 := 0.
Definition ENotOwner : u64 := 1.
Definition EAlreadyHasAccess : u64 := 2.
Definition ENoAccess : u64 := 3.

Record CollectionAccessPolicy := {
    id : UID;
    collection_id : option ID;
    owner : address;
    authorized_users : gmap address bool;
    total_authorized : u64;
  }.

Inductive event :=
  | AccessGranted (policy_id : ID) (user : address) (timestamp : u64)
  | AccessRevoked (policy_id : ID) (user : address) (timestamp : u64)
  | PolicyOwnershipTransferred (policy_id : ID) (old_owner new_owner : address)
                               (timestamp : u64)
  | PolicyLinkedToCollection (policy_id : ID) (collection_id : ID).

Inductive effect :=
  | Emit (e : event)
  | Share (p : CollectionAccessPolicy).   (* transfer::public_share_object *)

Abbreviation M := (move.M effect).

Definition set_collection_id (p : CollectionAccessPolicy) (c : option ID) :=
    {| id := id p; collection_id := c; owner := owner p;
       authorized_users := authorized_users p;
       total_authorized := total_authorized p |}.
Definition set_owner (p : CollectionAccessPolicy) (o : address) :=
    {| id := id p; collection_id := collection_id p; owner := o;
       authorized_users := authorized_users p;
       total_authorized := total_authorized p |}.
Definition set_users (p : CollectionAccessPolicy) (t : gmap address bool) (n : u64) :=
    {| id := id p; collection_id := collection_id p; owner := owner p;
       authorized_users := t; total_authorized := n |}.

Section creation.
Variable derive_id : list u8 -> u64 -> address.

Definition create_policy (collection_id : ID) (owner : address)
      : M CollectionAccessPolicy :=
      let* uid := object_new derive_id in
      ret {| id := uid;
             collection_id := Some collection_id;
             owner := owner;
             authorized_users := ∅;
             total_authorized := 0 |}.

Definition create_standalone_policy : M unit :=
      let* uid := object_new derive_id in
      let* c := get_ctx in
      let policy := {| id := uid;
                       collection_id := None;
                       owner := sender c;
                       authorized_users := ∅;
                       total_authorized := 0 |} in
      emit (Share policy).
End creation.

Definition link_to_collection (policy : CollectionAccessPolicy) (collection_id : ID)
    : M CollectionAccessPolicy :=
    let policy := set_collection_id policy (Some collection_id) in
    emit (Emit (PolicyLinkedToCollection (id policy) collection_id));;
    ret policy.

Definition share_policy (policy : CollectionAccessPolicy) : M unit :=
    emit (Share policy).

  (** The guarded body shared by [grant_access] and each iteration of
      [grant_access_batch]. *)
Definition grant_access (policy : CollectionAccessPolicy) (user : address)
    : M CollectionAccessPolicy :=
    if negb (table_contains (authorized_users policy) user) then
      let* t := try (table_add user true (authorized_users policy)) in
      let* n := try (add_u64 (total_authorized policy) 1) in
      let policy := set_users policy t n in
      emit (Emit (AccessGranted (id policy) user 0));;
      ret policy
    else ret policy.

Definition grant_access_batch (policy : CollectionAccessPolicy) (users : list address)
    : M CollectionAccessPolicy :=
    let len := length users in
    while_lt len 0 len
      (fun i policy =>
         let* user := try (borrow users i) in
         if negb (table_contains (authorized_users policy) user) then
           let* t := try (table_add user true (authorized_users policy)) in
           let* n := try (add_u64 (total_authorized policy) 1) in
           let policy := set_users policy t n in
           emit (Emit (AccessGranted (id policy) user 0));;
           ret policy
         else ret policy)
      policy.

Definition revoke_access (policy : CollectionAccessPolicy) (user : address)
    : M CollectionAccessPolicy :=
    let* c := get_ctx in
    assert (bool_decide (owner policy = sender c)) m_access_policy ENotOwner;;
    assert (table_contains (authorized_users policy) user) m_access_policy ENoAccess;;
    let* t := try (table_remove user (authorized_users policy)) in
    let* n := try (sub_u64 (total_authorized policy) 1) in
    let policy := set_users policy t n in
    emit (Emit (AccessRevoked (id policy) user (epoch_timestamp_ms c)));;
    ret policy.

Definition revoke_access_batch (policy : CollectionAccessPolicy) (users : list address)
    : M CollectionAccessPolicy :=
    let* c := get_ctx in
    assert (bool_decide (owner policy = sender c)) m_access_policy ENotOwner;;
    let len := length users in
    while_lt len 0 len
      (fun i policy =>
         let* user := try (borrow users i) in
         if table_contains (authorized_users policy) user then
           let* t := try (table_remove user (authorized_users policy)) in
           let* n := try (sub_u64 (total_authorized policy) 1) in
           let policy := set_users policy t n in
           emit (Emit (AccessRevoked (id policy) user (epoch_timestamp_ms c)));;
           ret policy
         else ret policy)
      policy.

Definition transfer_ownership (policy : CollectionAccessPolicy) (new_owner : address)
    : M CollectionAccessPolicy :=
    let* c := get_ctx in
    assert (bool_decide (owner policy = sender c)) m_access_policy ENotOwner;;
    let old_owner := owner policy in
    let policy := set_owner policy new_owner in
    emit (Emit (PolicyOwnershipTransferred (id policy) old_owner new_owner
                  (epoch_timestamp_ms c)));;
    ret policy.

Definition can_decrypt (policy : CollectionAccessPolicy) (requester : address) : bool :=
    if bool_decide (requester = owner policy) then true
    else if table_contains (authorized_users policy) requester then true
    else false.

Definition has_explicit_access (policy : CollectionAccessPolicy) (user : address) : bool :=
    table_contains (authorized_users policy) user.

  (** [is_prefix]: the index loop of the source, with its early returns.
      The loop state is [None] while running and [Some b] once returned. *)
Fixpoint is_prefix_loop (fuel : nat) (i prefix_len : nat) (prefix data : list u8)
    : Result bool :=
    match fuel with
    | O => Ok true
    | S fuel' =>
        if (i <? prefix_len)%nat then
          match borrow prefix i, borrow data i with
          | Ok a, Ok b =>
              if negb (a =? b) then Ok false
              else is_prefix_loop fuel' (S i) prefix_len prefix data
          | Err f, _ => Err f
          | _, Err f => Err f
          end
        else Ok true
    end.

Definition is_prefix (prefix data : list u8) : Result bool :=
    let prefix_len := length prefix in
    if (length data <? prefix_len)%nat then Ok false
    else is_prefix_loop prefix_len 0 prefix_len prefix data.

  (** [seal_approve] reads the context and the policy and only aborts or
      returns. *)
Definition seal_approve (id_ : list u8) (policy : CollectionAccessPolicy)
      (c : TxContext) : Result unit :=
    let requester := sender c in
    let policy_id_bytes := id policy in
    match is_prefix policy_id_bytes id_ with
    | Err f => Err f
    | Ok b =>
        if b then
          if can_decrypt policy requester then Ok tt
          else Err (Abort m_access_policy ENotAuthorized)
        else Err (Abort m_access_policy ENotAuthorized)
    end.

Definition verify_decrypt_access (policy : CollectionAccessPolicy) (c : TxContext)
    : Result unit :=
    let requester := sender c in
    if can_decrypt policy requester then Ok tt
    else Err (Abort m_access_policy ENotAuthorized).

Definition get_policy_id (policy : CollectionAccessPolicy) : ID := id policy.
Definition get_collection_id (policy : CollectionAccessPolicy) : option ID :=
    collection_id policy.
Definition get_owner (policy : CollectionAccessPolicy) : address := owner policy.
Definition get_total_authorized (policy : CollectionAccessPolicy) : u64 :=
    total_authorized policy.
Definition is_linked (policy : CollectionAccessPolicy) : bool :=
    match collection_id policy with Some _ => true | None => false end.

End access_policy.

(** ** [bunker_contracts::collection] *)

Module collection.

Definition EInvalidPrice : u64 := 1.
Definition EInsufficientPayment : u64 := 2.
Definition ENotOwner : u64 := 3.
Definition EAlreadyPurchased : u64 := 4.
Definition EInvalidVisibility : u64 := 5.
Definition ECollectionDeleted : u64 := 6.

Definition VISIBILITY_PUBLIC : u8 := 0.
Definition VISIBILITY_PRIVATE : u8 := 1.
Definition VISIBILITY_PAY_TO_SEE : u8 := 2.
Definition VISIBILITY_UNLISTED : u8 := 3.

Record PlatformConfig := {
    config_id : UID;
    platform_address : address;
    purchase_fee_bps : u64;
    tip_fee_bps : u64;
  }.

Record FileRef := {
    file_blob_id : list u8;
    file_name : list u8;
    file_content_type : list u8;
    file_size_bytes : u64;
    file_is_encrypted : bool;
  }.

Record Collection := {
    id : UID;
    owner : address;
    created_at : u64;
    name : list u8;
    description : list u8;
    category : list u8;
    tags : list (list u8);
    cover_image_blob_ids : list (list u8);
    files : list FileRef;
    visibility : u8;
    price : u64;
    purchase_count : u64;
    tip_count : u64;
    total_earnings : u64;
    total_tips : u64;
    is_encrypted : bool;
    encryption_key_hash : list u8;
    access_policy_id : option ID;
    is_deleted : bool;
  }.

Record AccessToken := {
    token_id : UID;
    token_collection_id : ID;
    token_owner : address;
    token_purchased_at : u64;
  }.

  (** [sui::coin::Coin<SUI>]: an object holding a balance. *)
Record Coin := { coin_id : UID; coin_value : u64 }.

Inductive event :=
  | CollectionCreated (collection_id : ID) (owner : address) (name : list u8)
                      (visibility : u8) (file_count : u64) (is_encrypted : bool)
  | CollectionUpdated (collection_id : ID) (name description : list u8)
                      (visibility : u8) (price : u64)
  | CollectionDeleted (collection_id : ID) (owner : address) (timestamp : u64)
  | AccessPurchased (collection_id : ID) (buyer : address) (price timestamp : u64)
  | TipReceived (collection_id : ID) (tipper : address) (amount timestamp : u64).

Inductive effect :=
  | Policy (e : access_policy.effect)              (* effects of the callee module *)
  | Emit (e : event)                               (* event::emit *)
  | TransferCoin (c : Coin) (recipient : address)  (* transfer::public_transfer *)
  | TransferToken (t : AccessToken) (recipient : address)   (* transfer::transfer *)
  | ShareCollection (c : Collection)               (* transfer::share_object *)
  | ShareConfig (c : PlatformConfig).

Abbreviation M := (move.M effect).

Definition set_metadata (c : Collection) (name description category : list u8)
      (tags : list (list u8)) (visibility : u8) (price : u64) : Collection :=
    {| id := id c; owner := owner c; created_at := created_at c;
       name := name; description := description; category := category;
       tags := tags; cover_image_blob_ids := cover_image_blob_ids c;
       files := files c; visibility := visibility; price := price;
       purchase_count := purchase_count c; tip_count := tip_count c;
       total_earnings := total_earnings c; total_tips := total_tips c;
       is_encrypted := is_encrypted c;
       encryption_key_hash := encryption_key_hash c;
       access_policy_id := access_policy_id c; is_deleted := is_deleted c |}.

Definition set_is_deleted (c : Collection) (b : bool) : Collection :=
    {| id := id c; owner := owner c; created_at := created_at c;
       name := name c; description := description c; category := category c;
       tags := tags c; cover_image_blob_ids := cover_image_blob_ids c;
       files := files c; visibility := visibility c; price := price c;
       purchase_count := purchase_count c; tip_count := tip_count c;
       total_earnings := total_earnings c; total_tips := total_tips c;
       is_encrypted := is_encrypted c;
       encryption_key_hash := encryption_key_hash c;
       access_policy_id := access_policy_id c; is_deleted := b |}.

Definition set_purchase_stats (c : Collection) (earnings count : u64) : Collection :=
    {| id := id c; owner := owner c; created_at := created_at c;
       name := name c; description := description c; category := category c;
       tags := tags c; cover_image_blob_ids := cover_image_blob_ids c;
       files := files c; visibility := visibility c; price := price c;
       purchase_count := count; tip_count := tip_count c;
       total_earnings := earnings; total_tips := total_tips c;
       is_encrypted := is_encrypted c;
       encryption_key_hash := encryption_key_hash c;
       access_policy_id := access_policy_id c; is_deleted := is_deleted c |}.

Definition set_tip_stats (c : Collection) (tips count : u64) : Collection :=
    {| id := id c; owner := owner c; created_at := created_at c;
       name := name c; description := description c; category := category c;
       tags := tags c; cover_image_blob_ids := cover_image_blob_ids c;
       files := files c; visibility := visibility c; price := price c;
       purchase_count := purchase_count c; tip_count := count;
       total_earnings := total_earnings c; total_tips := tips;
       is_encrypted := is_encrypted c;
       encryption_key_hash := encryption_key_hash c;
       access_policy_id := access_policy_id c; is_deleted := is_deleted c |}.

Definition set_access_policy_id (c : Collection) (p : option ID) : Collection :=
    {| id := id c; owner := owner c; created_at := created_at c;
       name := name c; description := description c; category := category c;
       tags := tags c; cover_image_blob_ids := cover_image_blob_ids c;
       files := files c; visibility := visibility c; price := price c;
       purchase_count := purchase_count c; tip_count := tip_count c;
       total_earnings := total_earnings c; total_tips := total_tips c;
       is_encrypted := is_encrypted c;
       encryption_key_hash := encryption_key_hash c;
       access_policy_id := p; is_deleted := is_deleted c |}.

  (** Field reads; the entry points below take arguments named like the
      fields, so they read a field through its getter. *)
Definition get_id (collection : Collection) : ID := id collection.
Definition get_name (collection : Collection) : list u8 := name collection.
Definition get_description (collection : Collection) : list u8 :=
    description collection.
Definition get_owner (collection : Collection) : address := owner collection.
Definition get_visibility (collection : Collection) : u8 := visibility collection.
Definition get_price (collection : Collection) : u64 := price collection.
Definition get_files (collection : Collection) : list FileRef := files collection.
Definition get_file_count (collection : Collection) : u64 :=
    N.of_nat (length (files collection)).
Definition get_purchase_count (collection : Collection) : u64 :=
    purchase_count collection.
Definition get_tip_count (collection : Collection) : u64 := tip_count collection.
Definition get_total_earnings (collection : Collection) : u64 :=
    total_earnings collection.
Definition get_total_tips (collection : Collection) : u64 := total_tips collection.
Definition get_access_policy_id (collection : Collection) : option ID :=
    access_policy_id collection.

  (** [coin::destroy_zero] *)
Definition coin_destroy_zero (c : Coin) : M unit :=
    assert (coin_value c =? 0) m_balance 0.

  (** The manifest loop of both creation entry points: one [FileRef] per
      index below [file_count], each field borrowed at that index. *)
Definition collect_files (file_count : nat)
      (blob_ids file_names content_types : list (list u8))
      (file_sizes : list u64) (is_encrypted_flags : list bool)
    : M (list FileRef) :=
    while_lt file_count 0 file_count
      (fun i files =>
         let* b := try (borrow blob_ids i) in
         let* n := try (borrow file_names i) in
         let* t := try (borrow content_types i) in
         let* s := try (borrow file_sizes i) in
         let* e := try (borrow is_encrypted_flags i) in
         let file_ref := {| file_blob_id := b; file_name := n;
                            file_content_type := t; file_size_bytes := s;
                            file_is_encrypted := e |} in
         ret (files ++ [file_ref]))
      [].

Section entry.
Variable derive_id : list u8 -> u64 -> address.

    (** [coin::split]: the split-off coin and what is left of [self]. *)
Definition coin_split (self : Coin) (split_amount : u64) : M (Coin * Coin) :=
      let* uid := object_new derive_id in
      assert (split_amount <=? coin_value self) m_balance 2;;
      let* rest := try (sub_u64 (coin_value self) split_amount) in
      ret ({| coin_id := uid; coin_value := split_amount |},
           {| coin_id := coin_id self; coin_value := rest |}).

Definition init : M unit :=
      let* uid := object_new derive_id in
      let* c := get_ctx in
      let platform_config := {| config_id := uid;
                                platform_address := sender c;
                                purchase_fee_bps := 250;
                                tip_fee_bps := 100 |} in
      emit (ShareConfig platform_config).

Definition create_collection
        (name description category : list u8)
        (tags cover_image_blob_ids : list (list u8))
        (blob_ids file_names content_types : list (list u8))
        (file_sizes : list u64) (is_encrypted_flags : list bool)
        (visibility : u8) (price : u64)
        (is_encrypted : bool) (encryption_key_hash : list u8) : M unit :=
      let file_count := length blob_ids in
      let* files := collect_files file_count blob_ids file_names content_types
                      file_sizes is_encrypted_flags in
      let* uid := object_new derive_id in
      let* c := get_ctx in
      let collection :=
        {| id := uid; name := name; description := description;
           category := category; tags := tags;
           cover_image_blob_ids := cover_image_blob_ids;
           owner := sender c; files := files;
           visibility := visibility; price := price;
           purchase_count := 0; tip_count := 0;
           total_earnings := 0; total_tips := 0;
           is_encrypted := is_encrypted;
           encryption_key_hash := encryption_key_hash;
           access_policy_id := None;
           created_at := epoch_timestamp_ms c;
           is_deleted := false |} in
      let collection_id := id collection in
      let* collection :=
        if is_encrypted then
          let* policy := call Policy
                           (access_policy.create_policy derive_id collection_id (sender c)) in
          let policy_id := access_policy.id policy in
          let collection := set_access_policy_id collection (Some policy_id) in
          call Policy (access_policy.share_policy policy);;
          ret collection
        else ret collection in
      emit (Emit (CollectionCreated collection_id (sender c) (get_name collection)
                    visibility (N.of_nat file_count) is_encrypted));;
      emit (ShareCollection collection).

Definition create_collection_with_policy
        (name description category : list u8)
        (tags cover_image_blob_ids : list (list u8))
        (blob_ids file_names content_types : list (list u8))
        (file_sizes : list u64) (is_encrypted_flags : list bool)
        (visibility : u8) (price : u64)
        (is_encrypted : bool) (encryption_key_hash : list u8)
        (policy : access_policy.CollectionAccessPolicy)
      : M access_policy.CollectionAccessPolicy :=
      let file_count := length blob_ids in
      let* files := collect_files file_count blob_ids file_names content_types
                      file_sizes is_encrypted_flags in
      let* uid := object_new derive_id in
      let* c := get_ctx in
      let collection :=
        {| id := uid; name := name; description := description;
           category := category; tags := tags;
           cover_image_blob_ids := cover_image_blob_ids;
           owner := sender c; files := files;
           visibility := visibility; price := price;
           purchase_count := 0; tip_count := 0;
           total_earnings := 0; total_tips := 0;
           is_encrypted := is_encrypted;
           encryption_key_hash := encryption_key_hash;
           access_policy_id := Some (access_policy.id policy);
           created_at := epoch_timestamp_ms c;
           is_deleted := false |} in
      let collection_id := id collection in
      let* policy := call Policy (access_policy.link_to_collection policy collection_id) in
      emit (Emit (CollectionCreated collection_id (sender c) (get_name collection)
                    visibility (N.of_nat file_count) is_encrypted));;
      emit (ShareCollection collection);;
      ret policy.
Definition purchase_access (collection : Collection)
        (platform_config : PlatformConfig) (payment : Coin) : M Collection :=
      assert (negb (is_deleted collection)) m_collection ECollectionDeleted;;
      assert (visibility collection =? VISIBILITY_PAY_TO_SEE) m_collection EInvalidPrice;;
      assert (negb (is_encrypted collection)) m_collection EInvalidPrice;;
      let payment_value := coin_value payment in
      assert (price collection <=? payment_value) m_collection EInsufficientPayment;;
      let* product := try (mul_u64 (price collection) (purchase_fee_bps platform_config)) in
      let* platform_fee := try (div_u64 product 10000) in
      let* creator_amount := try (sub_u64 (price collection) platform_fee) in
      let payment_coin := payment in
      let* (creator_payment, payment_coin) := coin_split payment_coin creator_amount in
      let* (platform_payment, payment_coin) := coin_split payment_coin platform_fee in
      emit (TransferCoin creator_payment (owner collection));;
      emit (TransferCoin platform_payment (platform_address platform_config));;
      let* c := get_ctx in
      (if 0 <? coin_value payment_coin
       then emit (TransferCoin payment_coin (sender c))
       else coin_destroy_zero payment_coin);;
      let* earnings := try (add_u64 (total_earnings collection) (price collection)) in
      let* count := try (add_u64 (purchase_count collection) 1) in
      let collection := set_purchase_stats collection earnings count in
      let* uid := object_new derive_id in
      let access_token := {| token_id := uid;
                             token_collection_id := id collection;
                             token_owner := sender c;
                             token_purchased_at := epoch_timestamp_ms c |} in
      emit (Emit (AccessPurchased (id collection) (sender c) (price collection)
                    (epoch_timestamp_ms c)));;
      emit (TransferToken access_token (sender c));;
      ret collection.

Definition purchase_access_encrypted (collection : Collection)
        (policy : access_policy.CollectionAccessPolicy)
        (platform_config : PlatformConfig) (payment : Coin)
      : M (Collection * access_policy.CollectionAccessPolicy) :=
      assert (negb (is_deleted collection)) m_collection ECollectionDeleted;;
      assert (visibility collection =? VISIBILITY_PAY_TO_SEE) m_collection EInvalidPrice;;
      assert (is_encrypted collection) m_collection EInvalidPrice;;
      let payment_value := coin_value payment in
      assert (price collection <=? payment_value) m_collection EInsufficientPayment;;
      let* product := try (mul_u64 (price collection) (purchase_fee_bps platform_config)) in
      let* platform_fee := try (div_u64 product 10000) in
      let* creator_amount := try (sub_u64 (price collection) platform_fee) in
      let payment_coin := payment in
      let* (creator_payment, payment_coin) := coin_split payment_coin creator_amount in
      let* (platform_payment, payment_coin) := coin_split payment_coin platform_fee in
      emit (TransferCoin creator_payment (owner collection));;
      emit (TransferCoin platform_payment (platform_address platform_config));;
      let* c := get_ctx in
      (if 0 <? coin_value payment_coin
       then emit (TransferCoin payment_coin (sender c))
       else coin_destroy_zero payment_coin);;
      let* earnings := try (add_u64 (total_earnings collection) (price collection)) in
      let* count := try (add_u64 (purchase_count collection) 1) in
      let collection := set_purchase_stats collection earnings count in
      let* policy := call Policy (access_policy.grant_access policy (sender c)) in
      let* uid := object_new derive_id in
      let access_token := {| token_id := uid;
                             token_collection_id := id collection;
                             token_owner := sender c;
                             token_purchased_at := epoch_timestamp_ms c |} in
      emit (Emit (AccessPurchased (id collection) (sender c) (price collection)
                    (epoch_timestamp_ms c)));;
      emit (TransferToken access_token (sender c));;
      ret (collection, policy).

Definition tip_creator (collection : Collection)
        (platform_config : PlatformConfig) (payment : Coin) : M Collection :=
      assert (negb (is_deleted collection)) m_collection ECollectionDeleted;;
      let tip_amount := coin_value payment in
      let* product := try (mul_u64 tip_amount (tip_fee_bps platform_config)) in
      let* platform_fee := try (div_u64 product 10000) in
      let* creator_amount := try (sub_u64 tip_amount platform_fee) in
      let payment_coin := payment in
      let* (creator_payment, payment_coin) := coin_split payment_coin creator_amount in
      let* (platform_payment, payment_coin) := coin_split payment_coin platform_fee in
      emit (TransferCoin creator_payment (owner collection));;
      emit (TransferCoin platform_payment (platform_address platform_config));;
      coin_destroy_zero payment_coin;;
      let* tips := try (add_u64 (total_tips collection) tip_amount) in
      let* count := try (add_u64 (tip_count collection) 1) in
      let collection := set_tip_stats collection tips count in
      let* c := get_ctx in
      emit (Emit (TipReceived (id collection) (sender c) tip_amount
                    (epoch_timestamp_ms c)));;
      ret collection.
End entry.

Definition update_collection (collection : Collection)
      (name description category : list u8) (tags : list (list u8))
      (visibility : u8) (price : u64) : M Collection :=
    let* c := get_ctx in
    assert (bool_decide (owner collection = sender c)) m_collection ENotOwner;;
    assert (negb (is_deleted collection)) m_collection ECollectionDeleted;;
    let collection := set_metadata collection name description category tags
                        visibility price in
    emit (Emit (CollectionUpdated (id collection) name description visibility price));;
    ret collection.

Definition delete_collection (collection : Collection) : M Collection :=
    let* c := get_ctx in
    assert (bool_decide (owner collection = sender c)) m_collection ENotOwner;;
    assert (negb (is_deleted collection)) m_collection ECollectionDeleted;;
    let collection := set_is_deleted collection true in
    emit (Emit (CollectionDeleted (id collection) (owner collection)
                  (epoch_timestamp_ms c)));;
    ret collection.

Definition update_platform_address (config : PlatformConfig) (new_address : address)
    : M PlatformConfig :=
    let* c := get_ctx in
    assert (bool_decide (platform_address config = sender c)) m_collection ENotOwner;;
    ret {| config_id := config_id config;
           platform_address := new_address;
           purchase_fee_bps := purchase_fee_bps config;
           tip_fee_bps := tip_fee_bps config |}.

Definition update_platform_fees (config : PlatformConfig)
      (purchase_fee_bps tip_fee_bps : u64) : M PlatformConfig :=
    let* c := get_ctx in
    assert (bool_decide (platform_address config = sender c)) m_collection ENotOwner;;
    ret {| config_id := config_id config;
           platform_address := platform_address config;
           purchase_fee_bps := purchase_fee_bps;
           tip_fee_bps := tip_fee_bps |}.

Definition get_purchase_fee_bps (config : PlatformConfig) : u64 :=
    purchase_fee_bps config.
Definition get_tip_fee_bps (config : PlatformConfig) : u64 := tip_fee_bps config.

Definition has_access (collection : Collection) (user : address)
      (_current_time : u64) : bool :=
    if is_deleted collection then false
    else if bool_decide (owner collection = user) then true
    else if (visibility collection =? VISIBILITY_PUBLIC)
            || (visibility collection =? VISIBILITY_UNLISTED) then true
    else if visibility collection =? VISIBILITY_PRIVATE then false
    else false.

Definition can_decrypt (collection : Collection)
      (policy : access_policy.CollectionAccessPolicy) (user : address)
      (current_time : u64) : bool :=
    if negb (is_encrypted collection) then has_access collection user current_time
    else has_access collection user current_time
         && access_policy.can_decrypt policy user.

End collection.

(** ** Vocabulary of the properties *)

Section vocabulary.
Variable derive_id : list u8 -> u64 -> address.

(** The cached counter of a policy agrees with its table. *)
Definition counted (p : access_policy.CollectionAccessPolicy) : Prop :=
  access_policy.total_authorized p
  = N.of_nat (size (access_policy.authorized_users p)).

(** The calls that take a policy by mutable reference. *)
Inductive policy_call :=
| Grant (user : address)
| GrantBatch (users : list address)
| Revoke (user : address)
| RevokeBatch (users : list address)
| TransferOwnership (new_owner : address)
| Link (collection_id : ID).

Definition run_policy_call (c : policy_call)
    (p : access_policy.CollectionAccessPolicy)
  : access_policy.M access_policy.CollectionAccessPolicy :=
  match c with
  | Grant user => access_policy.grant_access p user
  | GrantBatch users => access_policy.grant_access_batch p users
  | Revoke user => access_policy.revoke_access p user
  | RevokeBatch users => access_policy.revoke_access_batch p users
  | TransferOwnership new_owner => access_policy.transfer_ownership p new_owner
  | Link collection_id => access_policy.link_to_collection p collection_id
  end.

(** Policies that exist on chain: made by one of the two creation
    functions, then changed by committed calls only (an aborted call
    leaves the policy as it was). *)
Inductive reachable : access_policy.CollectionAccessPolicy -> Prop :=
| reach_create collection_id owner s p s' :
    access_policy.create_policy derive_id collection_id owner s = Ok (p, s') ->
    reachable p
| reach_standalone s u s' p :
    access_policy.create_standalone_policy derive_id s = Ok (u, s') ->
    last (log s') = Some (access_policy.Share p) ->
    reachable p
| reach_call p c s p' s' :
    reachable p ->
    run_policy_call c p s = Ok (p', s') ->
    reachable p'.

(** The coin transfers of an effect log: recipient and amount, in order. *)
Definition coin_transfers (l : list collection.effect) : list (address * u64) :=
  omap (fun e => match e with
                 | collection.TransferCoin c r => Some (r, collection.coin_value c)
                 | _ => None
                 end) l.

(** The collections shared by an effect log, in order. *)
Definition shared_collections (l : list collection.effect)
  : list collection.Collection :=
  omap (fun e => match e with
                 | collection.ShareCollection c => Some c
                 | _ => None
                 end) l.

(** The manifest read off the five per-file arrays position by position,
    as long as every array has an entry. *)
Fixpoint manifest (blob_ids file_names content_types : list (list u8))
    (file_sizes : list u64) (is_encrypted_flags : list bool)
  : list collection.FileRef :=
  match blob_ids, file_names, content_types, file_sizes, is_encrypted_flags with
  | b :: bs, n :: ns, t :: ts, s :: ss, e :: es =>
      {| collection.file_blob_id := b; collection.file_name := n;
         collection.file_content_type := t; collection.file_size_bytes := s;
         collection.file_is_encrypted := e |} :: manifest bs ns ts ss es
  | _, _, _, _, _ => []
  end.

(** The calls that take a collection by mutable reference. *)
Inductive collection_call :=
| Update (name description category : list u8) (tags : list (list u8))
         (visibility : u8) (price : u64)
| Delete
| Purchase (platform_config : collection.PlatformConfig) (payment : collection.Coin)
| PurchaseEncrypted (policy : access_policy.CollectionAccessPolicy)
                    (platform_config : collection.PlatformConfig)
                    (payment : collection.Coin)
| Tip (platform_config : collection.PlatformConfig) (payment : collection.Coin).

Definition run_collection_call (k : collection_call) (c : collection.Collection)
  : collection.M collection.Collection :=
  match k with
  | Update name description category tags visibility price =>
      collection.update_collection c name description category tags visibility price
  | Delete => collection.delete_collection c
  | Purchase cfg payment => collection.purchase_access derive_id c cfg payment
  | PurchaseEncrypted policy cfg payment =>
      let* r := collection.purchase_access_encrypted derive_id c policy cfg payment in
      ret (fst r)
  | Tip cfg payment => collection.tip_creator derive_id c cfg payment
  end.

(** A transaction commits the new collection, or aborts and leaves it. *)
Definition commit (c : collection.Collection)
    (tx : collection_call * env collection.effect) : collection.Collection :=
  match run_collection_call (fst tx) c (snd tx) with
  | Ok (c', _) => c'
  | Err _ => c
  end.

Definition commit_all (txs : list (collection_call * env collection.effect))
    (c : collection.Collection) : collection.Collection :=
  fold_left commit txs c.

(** What a successful purchase of [c] paid with [pay] leaves behind, from
    environment [s] to [s'] and collection [c] to [c']. *)
Definition purchase_settled (c : collection.Collection)
    (cfg : collection.PlatformConfig) (pay : collection.Coin)
    (s s' : env collection.effect) (c' : collection.Collection) : Prop :=
  let price := collection.price c in
  let payment_value := collection.coin_value pay in
  let platform_fee := price * collection.purchase_fee_bps cfg / 10000 in
  let creator_amount := price - platform_fee in
  let refund := payment_value - price in
  collection.is_deleted c = false
  /\ collection.visibility c = collection.VISIBILITY_PAY_TO_SEE
  /\ price <= payment_value
  /\ creator_amount + platform_fee = price
  /\ creator_amount + platform_fee + refund = payment_value
  /\ coin_transfers (log s')
     = coin_transfers (log s)
       ++ [(collection.owner c, creator_amount);
           (collection.platform_address cfg, platform_fee)]
       ++ (if 0 <? refund then [(sender (ctx s), refund)] else [])
  /\ collection.purchase_count c' = collection.purchase_count c + 1
  /\ collection.total_earnings c' = collection.total_earnings c + price.

(** What a successful tip paid with [pay] leaves behind. *)
Definition tip_settled (c : collection.Collection)
    (cfg : collection.PlatformConfig) (pay : collection.Coin)
    (s s' : env collection.effect) (c' : collection.Collection) : Prop :=
  let tip_amount := collection.coin_value pay in
  let platform_fee := tip_amount * collection.tip_fee_bps cfg / 10000 in
  let creator_amount := tip_amount - platform_fee in
  collection.is_deleted c = false
  /\ creator_amount + platform_fee = tip_amount
  /\ coin_transfers (log s')
     = coin_transfers (log s)
       ++ [(collection.owner c, creator_amount);
           (collection.platform_address cfg, platform_fee)]
  /\ collection.tip_count c' = collection.tip_count c + 1
  /\ collection.total_tips c' = collection.total_tips c + tip_amount.

End vocabulary.

(** Sample data for the closed examples: ids are the transaction digest
    followed by the creation counter. *)
Definition sample_derive_id (h : list u8) (n : u64) : address := h ++ [n].
Definition alice : address := [10].
Definition bob : address := [11].
Definition platform : address := [12].
Definition sample_ctx (who : address) : TxContext :=
  {| sender := who; tx_hash := [7]; epoch_timestamp_ms := 1000; ids_created := 0 |}.
Definition sample_env {E} (who : address) : env E :=
  {| ctx := sample_ctx who; log := [] |}.

Definition linked_policy : access_policy.CollectionAccessPolicy :=
  {| access_policy.id := [9]; access_policy.collection_id := Some [1];
     access_policy.owner := alice; access_policy.authorized_users := ∅;
     access_policy.total_authorized := 0 |}.
(** A policy whose owner also holds an entry of her own, as after buying
    her own encrypted collection. *)
Definition owner_listed_policy : access_policy.CollectionAccessPolicy :=
  {| access_policy.id := [9]; access_policy.collection_id := Some [1];
     access_policy.owner := alice;
     access_policy.authorized_users := {[ alice := true ]};
     access_policy.total_authorized := 1 |}.
Definition sample_collection : collection.Collection :=
  {| collection.id := [1]; collection.owner := alice;
     collection.created_at := 900;
     collection.name := [110]; collection.description := [100];
     collection.category := [99]; collection.tags := [[116]];
     collection.cover_image_blob_ids := [[5]];
     collection.files := [];
     collection.visibility := collection.VISIBILITY_PAY_TO_SEE;
     collection.price := 1000;
     collection.purchase_count := 0; collection.tip_count := 0;
     collection.total_earnings := 0; collection.total_tips := 0;
     collection.is_encrypted := false;
     collection.encryption_key_hash := [];
     collection.access_policy_id := None;
     collection.is_deleted := false |}.
Definition sample_config : collection.PlatformConfig :=
  {| collection.config_id := [2]; collection.platform_address := platform;
     collection.purchase_fee_bps := 250; collection.tip_fee_bps := 100 |}.
Definition sample_coin (v : u64) : collection.Coin :=
  {| collection.coin_id := [3]; collection.coin_value := v |}.

Definition cheap_collection : collection.Collection :=
  collection.set_metadata sample_collection [110] [100] [99] [[116]]
    collection.VISIBILITY_PAY_TO_SEE 1.
Definition deleted_collection : collection.Collection :=
  collection.set_is_deleted sample_collection true.
Definition greedy_config : collection.PlatformConfig :=
  {| collection.config_id := [2]; collection.platform_address := platform;
     collection.purchase_fee_bps := 10001; collection.tip_fee_bps := 100 |}.

Definition doubling_config : collection.PlatformConfig :=
  {| collection.config_id := [2]; collection.platform_address := platform;
     collection.purchase_fee_bps := 20000; collection.tip_fee_bps := 100 |}.

(** ** Further vocabulary: sequences, logs and more samples *)

(** Running [f] on each element of a list in order, threading the loop
    state, as the batch loops do. *)
Fixpoint for_each {E S A} (f : A -> S -> move.M E S) (l : list A) (st : S)
  : move.M E S :=
  match l with
  | [] => ret st
  | x :: xs => bind (f x st) (for_each f xs)
  end.

(** One step of [revoke_access_batch]: remove the entry when there is one,
    do nothing otherwise. *)
Definition revoke_if_present (timestamp : u64) (user : address)
    (policy : access_policy.CollectionAccessPolicy)
  : access_policy.M access_policy.CollectionAccessPolicy :=
  if table_contains (access_policy.authorized_users policy) user then
    let* t := try (table_remove user (access_policy.authorized_users policy)) in
    let* n := try (sub_u64 (access_policy.total_authorized policy) 1) in
    let policy := access_policy.set_users policy t n in
    emit (access_policy.Emit
            (access_policy.AccessRevoked (access_policy.id policy) user timestamp));;
    ret policy
  else ret policy.

(** The access tokens handed out by an effect log, with their recipients. *)
Definition token_transfers (l : list collection.effect)
  : list (collection.AccessToken * address) :=
  omap (fun e => match e with
                 | collection.TransferToken t r => Some (t, r)
                 | _ => None
                 end) l.

(** The policies shared by an effect log of the collection module. *)
Definition shared_policies (l : list collection.effect)
  : list access_policy.CollectionAccessPolicy :=
  omap (fun e => match e with
                 | collection.Policy (access_policy.Share p) => Some p
                 | _ => None
                 end) l.

(** The policies shared by an effect log of the policy module. *)
Definition shared_standalone (l : list access_policy.effect)
  : list access_policy.CollectionAccessPolicy :=
  omap (fun e => match e with
                 | access_policy.Share p => Some p
                 | _ => None
                 end) l.

(** The transactions that take a policy by mutable reference: a call of
    the registry, the purchase of an encrypted collection, and the creation
    of a collection on an existing policy. *)
Inductive policy_tx :=
| Registry (call : policy_call) (s : env access_policy.effect)
| Bought (c : collection.Collection)
         (platform_config : collection.PlatformConfig)
         (payment : collection.Coin) (s : env collection.effect)
| Attached (name description category : list u8)
           (tags cover_image_blob_ids : list (list u8))
           (blob_ids file_names content_types : list (list u8))
           (file_sizes : list u64) (is_encrypted_flags : list bool)
           (visibility : u8) (price : u64)
           (is_encrypted : bool) (encryption_key_hash : list u8)
           (s : env collection.effect).

(** A committed transaction replaces the policy; an aborted one leaves it. *)
Definition commit_policy (derive_id : list u8 -> u64 -> address)
    (p : access_policy.CollectionAccessPolicy) (tx : policy_tx)
  : access_policy.CollectionAccessPolicy :=
  match tx with
  | Registry call s =>
      match run_policy_call call p s with
      | Ok (p', _) => p'
      | Err _ => p
      end
  | Bought c platform_config payment s =>
      match collection.purchase_access_encrypted derive_id c p
              platform_config payment s with
      | Ok ((_, p'), _) => p'
      | Err _ => p
      end
  | Attached name description category tags cover_image_blob_ids
      blob_ids file_names content_types file_sizes is_encrypted_flags
      visibility price is_encrypted encryption_key_hash s =>
      match collection.create_collection_with_policy derive_id name description
              category tags cover_image_blob_ids blob_ids file_names
              content_types file_sizes is_encrypted_flags visibility price
              is_encrypted encryption_key_hash p s with
      | Ok (p', _) => p'
      | Err _ => p
      end
  end.

Definition commit_policy_all (derive_id : list u8 -> u64 -> address)
    (txs : list policy_tx) (p : access_policy.CollectionAccessPolicy)
  : access_policy.CollectionAccessPolicy :=
  fold_left (commit_policy derive_id) txs p.

(** The transactions that can give [who] the right to decrypt: a grant of
    [who], alone or in a batch, a purchase sent by [who], and a transfer of
    the ownership to [who]. *)
Definition restores_access (who : address) (tx : policy_tx) : Prop :=
  match tx with
  | Registry (Grant user) _ => user = who
  | Registry (GrantBatch users) _ => who ∈ users
  | Registry (TransferOwnership new_owner) _ => new_owner = who
  | Registry (Revoke _) _ | Registry (RevokeBatch _) _ | Registry (Link _) _ => False
  | Bought _ _ _ s => sender (ctx s) = who
  | Attached _ _ _ _ _ _ _ _ _ _ _ _ _ _ _ => False
  end.

Definition carol : address := [13].
Definition other_policy : access_policy.CollectionAccessPolicy :=
  {| access_policy.id := [8]; access_policy.collection_id := None;
     access_policy.owner := bob; access_policy.authorized_users := ∅;
     access_policy.total_authorized := 0 |}.
Definition bob_listed_policy : access_policy.CollectionAccessPolicy :=
  {| access_policy.id := [9]; access_policy.collection_id := Some [1];
     access_policy.owner := alice;
     access_policy.authorized_users := {[ bob := true ]};
     access_policy.total_authorized := 1 |}.
Definition encrypted_collection : collection.Collection :=
  {| collection.id := [1]; collection.owner := alice;
     collection.created_at := 900;
     collection.name := [110]; collection.description := [100];
     collection.category := [99]; collection.tags := [[116]];
     collection.cover_image_blob_ids := [[5]];
     collection.files := [];
     collection.visibility := collection.VISIBILITY_PAY_TO_SEE;
     collection.price := 1000;
     collection.purchase_count := 0; collection.tip_count := 0;
     collection.total_earnings := 0; collection.total_tips := 0;
     collection.is_encrypted := true;
     collection.encryption_key_hash := [];
     collection.access_policy_id := Some [9];
     collection.is_deleted := false |}.

(** ** Reasoning about transactions *)

Section monad_facts.
Context {E : Type}.

Lemma bind_Ok {A B} (m : move.M E A) (k : A -> move.M E B) s r :
  bind m k s = Ok r -> exists a s1, m s = Ok (a, s1) /\ k a s1 = Ok r.
Proof.
  unfold bind. destruct (m s) as [[a s1]|f]; [eauto | discriminate].
Qed.

Lemma ret_Ok {A} (a b : A) (s s1 : env E) :
  ret a s = Ok (b, s1) -> b = a /\ s1 = s.
Proof. unfold ret. intros [= <- <-]. auto. Qed.

Lemma assert_Ok (b : bool) m code (s s1 : env E) u :
  assert b m code s = Ok (u, s1) -> b = true /\ s1 = s.
Proof.
  unfold assert, ret, fail. destruct b; [intros [= _ <-]; auto | discriminate].
Qed.

Lemma try_Ok {A} (r : Result A) (s s1 : env E) a :
  try r s = Ok (a, s1) -> r = Ok a /\ s1 = s.
Proof.
  unfold try. destruct r; [intros [= <- <-]; auto | discriminate].
Qed.

Lemma get_ctx_Ok (s s1 : env E) c :
  get_ctx s = Ok (c, s1) -> c = ctx s /\ s1 = s.
Proof. unfold get_ctx. intros [= <- <-]. auto. Qed.

Lemma emit_Ok (e : E) (s s1 : env E) u :
  emit e s = Ok (u, s1) -> s1 = {| ctx := ctx s; log := log s ++ [e] |}.
Proof. unfold emit. intros [= _ <-]. reflexivity. Qed.

Lemma object_new_Ok derive_id (s s1 : env E) uid :
  object_new derive_id s = Ok (uid, s1) ->
  uid = derive_id (tx_hash (ctx s)) (ids_created (ctx s))
  /\ s1 = {| ctx := {| sender := sender (ctx s); tx_hash := tx_hash (ctx s);
                       epoch_timestamp_ms := epoch_timestamp_ms (ctx s);
                       ids_created := ids_created (ctx s) + 1 |};
             log := log s |}.
Proof. unfold object_new. intros [= <- <-]. auto. Qed.

(** A loop keeps whatever each successful iteration keeps. *)
Lemma while_lt_invariant {S} (P : S -> Prop) (body : nat -> S -> move.M E S) :
  (forall i s e s' e', P s -> body i s e = Ok (s', e') -> P s') ->
  forall fuel i len s e s' e',
    P s -> while_lt fuel i len body s e = Ok (s', e') -> P s'.
Proof.
  intros Hbody fuel. induction fuel as [|fuel IH]; intros i len s e s' e' HP H.
  - apply ret_Ok in H as [-> _]. exact HP.
  - simpl in H. destruct (i <? len)%nat.
    + apply bind_Ok in H as (s1 & e1 & Hb & Hrest).
      eapply IH; [eapply Hbody; eauto | exact Hrest].
    + apply ret_Ok in H as [-> _]. exact HP.
Qed.

End monad_facts.

(** Inversion of a successful run, one step at a time. *)
Ltac inv_run H :=
  repeat match type of H with
  | bind _ _ _ = Ok _ =>
      let a := fresh "a" in let s := fresh "s" in let Hm := fresh "Hm" in
      apply bind_Ok in H as (a & s & Hm & H);
      first
        [ apply assert_Ok in Hm as [Hm ->]
        | apply try_Ok in Hm as [Hm ->]
        | apply get_ctx_Ok in Hm as [-> ->]
        | apply emit_Ok in Hm as ->
        | apply ret_Ok in Hm as [-> ->]
        | apply object_new_Ok in Hm as [-> ->]
        | idtac ]
  end.

Lemma add_u64_Ok a b c : add_u64 a b = Ok c -> c = a + b /\ a + b <= MAX_U64.
Proof.
  unfold add_u64. destruct (N.leb_spec (a + b) MAX_U64); [|discriminate].
  intros [= <-]. auto.
Qed.

Lemma sub_u64_Ok a b c : sub_u64 a b = Ok c -> c = a - b /\ b <= a.
Proof.
  unfold sub_u64. destruct (N.leb_spec b a); [|discriminate].
  intros [= <-]. auto.
Qed.

Lemma mul_u64_Ok a b c : mul_u64 a b = Ok c -> c = a * b /\ a * b <= MAX_U64.
Proof.
  unfold mul_u64. destruct (N.leb_spec (a * b) MAX_U64); [|discriminate].
  intros [= <-]. auto.
Qed.

Lemma div_u64_Ok a b c : div_u64 a b = Ok c -> c = a / b /\ b <> 0.
Proof.
  unfold div_u64. destruct (N.eqb_spec b 0); [discriminate|].
  intros [= <-]. auto.
Qed.

Lemma table_contains_true t k : table_contains t k = true <-> is_Some (t !! k).
Proof. unfold table_contains. apply bool_decide_eq_true. Qed.

Lemma table_contains_false t k : table_contains t k = false <-> t !! k = None.
Proof.
  unfold table_contains. rewrite bool_decide_eq_false, eq_None_not_Some. tauto.
Qed.

(** ** The authorization registry *)

Section registry.
Import access_policy.

Lemma grant_step_counted p user t n :
  counted p ->
  table_contains (authorized_users p) user = false ->
  table_add user true (authorized_users p) = Ok t ->
  add_u64 (total_authorized p) 1 = Ok n ->
  counted (set_users p t n).
Proof.
  unfold counted, table_add. intros Hc Hnone Ht Hn.
  apply table_contains_false in Hnone. rewrite Hnone in Ht.
  injection Ht as <-. apply add_u64_Ok in Hn as [-> _]. simpl.
  rewrite map_size_insert_None by exact Hnone. rewrite Hc. lia.
Qed.

Lemma revoke_step_counted p user t n :
  counted p ->
  table_contains (authorized_users p) user = true ->
  table_remove user (authorized_users p) = Ok t ->
  sub_u64 (total_authorized p) 1 = Ok n ->
  counted (set_users p t n).
Proof.
  unfold counted, table_remove. intros Hc Hsome Ht Hn.
  apply table_contains_true in Hsome. pose proof Hsome as [v Hv].
  rewrite Hv in Ht. injection Ht as <-. apply sub_u64_Ok in Hn as [-> _]. simpl.
  rewrite Hc, (map_size_delete_Some _ _ Hsome).
  pose proof (map_size_ne_0_lookup_2 _ _ Hsome). lia.
Qed.

Lemma grant_access_counted p user s p' s' :
  counted p -> grant_access p user s = Ok (p', s') -> counted p'.
Proof.
  intros Hc H. unfold grant_access in H.
  destruct (table_contains (authorized_users p) user) eqn:Hin; simpl in H.
  - apply ret_Ok in H as [-> _]. exact Hc.
  - inv_run H. apply ret_Ok in H as [-> _]. eapply grant_step_counted; eauto.
Qed.

Lemma grant_access_batch_counted p users s p' s' :
  counted p -> grant_access_batch p users s = Ok (p', s') -> counted p'.
Proof.
  intros Hc H. unfold grant_access_batch in H.
  eapply (while_lt_invariant counted) in H; [exact H | | exact Hc].
  clear. intros i p e p' e' Hc H. inv_run H.
  destruct (table_contains (authorized_users p) a) eqn:Hin; simpl in H.
  - apply ret_Ok in H as [-> _]. exact Hc.
  - inv_run H. apply ret_Ok in H as [-> _]. eapply grant_step_counted; eauto.
Qed.

Lemma revoke_access_counted p user s p' s' :
  counted p -> revoke_access p user s = Ok (p', s') -> counted p'.
Proof.
  intros Hc H. unfold revoke_access in H. inv_run H.
  apply ret_Ok in H as [-> _]. eapply revoke_step_counted; eauto.
Qed.

Lemma revoke_access_batch_counted p users s p' s' :
  counted p -> revoke_access_batch p users s = Ok (p', s') -> counted p'.
Proof.
  intros Hc H. unfold revoke_access_batch in H. inv_run H.
  eapply (while_lt_invariant counted) in H; [exact H | | exact Hc].
  clear. intros i p e p' e' Hc H. inv_run H.
  destruct (table_contains (authorized_users p) a) eqn:Hin; simpl in H.
  - inv_run H. apply ret_Ok in H as [-> _]. eapply revoke_step_counted; eauto.
  - apply ret_Ok in H as [-> _]. exact Hc.
Qed.

Lemma transfer_ownership_users p new_owner s p' s' :
  transfer_ownership p new_owner s = Ok (p', s') ->
  authorized_users p' = authorized_users p /\ total_authorized p' = total_authorized p.
Proof.
  intros H. unfold transfer_ownership in H. inv_run H.
  apply ret_Ok in H as [-> _]. auto.
Qed.

Lemma link_to_collection_Ok p cid s :
  link_to_collection p cid s
  = Ok (set_collection_id p (Some cid),
        {| ctx := ctx s;
           log := log s ++ [Emit (PolicyLinkedToCollection (id p) cid)] |}).
Proof. reflexivity. Qed.

End registry.

(** C4: on every policy reachable from creation by committed grant, batch
    grant, revoke and batch revoke calls (and by ownership transfers and
    links), [total_authorized] is the number of entries of
    [authorized_users]. *)
Theorem total_authorized_is_cardinality derive_id p :
  reachable derive_id p ->
  access_policy.total_authorized p
  = N.of_nat (size (access_policy.authorized_users p)).
Proof.
  fold (counted p). induction 1 as [cid o s p s' H | s u s' p H Hl | p c s p' s' _ IH H].
  - unfold access_policy.create_policy in H. inv_run H.
    apply ret_Ok in H as [-> _]. reflexivity.
  - unfold access_policy.create_standalone_policy in H. inv_run H.
    apply emit_Ok in H as ->. simpl in Hl. rewrite last_snoc in Hl.
    injection Hl as <-. reflexivity.
  - destruct c; simpl in H.
    + eapply grant_access_counted; eauto.
    + eapply grant_access_batch_counted; eauto.
    + eapply revoke_access_counted; eauto.
    + eapply revoke_access_batch_counted; eauto.
    + apply transfer_ownership_users in H as [Hu Ht].
      unfold counted in *. rewrite Hu, Ht. exact IH.
    + rewrite link_to_collection_Ok in H. injection H as <- _. exact IH.
Qed.

(** ** The key-server entry point *)

Lemma borrow_lookup {A} (v : list A) i x : v !! i = Some x -> borrow v i = Ok x.
Proof. unfold borrow. intros ->. reflexivity. Qed.

Lemma borrow_short {A} (v : list A) i :
  (length v <= i)%nat -> borrow v i = Err VectorIndexOutOfBounds.
Proof. unfold borrow. intros H. rewrite lookup_ge_None_2 by exact H. reflexivity. Qed.

(** The index loop of [is_prefix] never borrows out of range once the
    length test has passed, and decides the prefix relation on what is
    left of both vectors from [i] on. *)
Lemma is_prefix_loop_spec (prefix data : list u8) fuel :
  forall i,
    length prefix = (i + fuel)%nat ->
    (length prefix <= length data)%nat ->
    access_policy.is_prefix_loop fuel i (length prefix) prefix data
    = Ok (bool_decide (drop i prefix `prefix_of` drop i data)).
Proof.
  induction fuel as [|fuel IH]; intros i Hlen Hle; simpl.
  - rewrite drop_ge by lia. rewrite bool_decide_eq_true_2 by apply prefix_nil.
    reflexivity.
  - replace (i <? length prefix)%nat with true
      by (symmetry; apply Nat.ltb_lt; lia).
    destruct (lookup_lt_is_Some_2 prefix i) as [a Ha]; [lia|].
    destruct (lookup_lt_is_Some_2 data i) as [b Hb]; [lia|].
    rewrite (borrow_lookup _ _ _ Ha), (borrow_lookup _ _ _ Hb).
    rewrite (drop_S _ _ _ Ha), (drop_S _ _ _ Hb).
    destruct (N.eqb_spec a b) as [->|Hne]; simpl.
    + rewrite IH by lia. f_equal. apply bool_decide_ext. split.
      * apply prefix_cons.
      * apply prefix_cons_inv_2.
    + rewrite bool_decide_eq_false_2; [reflexivity|].
      intros Hp. apply prefix_cons_inv_1 in Hp. contradiction.
Qed.

Lemma is_prefix_spec (prefix data : list u8) :
  access_policy.is_prefix prefix data = Ok (bool_decide (prefix `prefix_of` data)).
Proof.
  unfold access_policy.is_prefix.
  destruct (Nat.ltb_spec (length data) (length prefix)) as [Hlt|Hge].
  - rewrite bool_decide_eq_false_2; [reflexivity|].
    intros Hp. apply prefix_length in Hp. lia.
  - apply (is_prefix_loop_spec prefix data (length prefix) 0); [reflexivity | exact Hge].
Qed.

Lemma can_decrypt_spec policy requester :
  access_policy.can_decrypt policy requester = true
  <-> requester = access_policy.owner policy
      \/ is_Some (access_policy.authorized_users policy !! requester).
Proof.
  unfold access_policy.can_decrypt. case_bool_decide as Ho.
  - split; auto.
  - destruct (table_contains _ _) eqn:Hin.
    + apply table_contains_true in Hin. split; auto.
    + apply table_contains_false in Hin. split; [discriminate|].
      intros [?|[v Hv]]; [contradiction | congruence].
Qed.

(** C5: [seal_approve] accepts exactly when the request id starts with the
    bytes of the policy's own id and [can_decrypt] holds for the sender
    (the sender is the owner or has an entry in [authorized_users]); in
    every other case it aborts with [ENotAuthorized]. *)
Theorem seal_approve_accepts_iff (id : list u8)
    (policy : access_policy.CollectionAccessPolicy) (c : TxContext) :
  (access_policy.seal_approve id policy c = Ok tt
   <-> (exists rest, id = access_policy.id policy ++ rest)
       /\ access_policy.can_decrypt policy (sender c) = true)
  /\ (access_policy.seal_approve id policy c = Ok tt
      \/ access_policy.seal_approve id policy c
         = Err (Abort m_access_policy access_policy.ENotAuthorized))
  /\ (access_policy.can_decrypt policy (sender c) = true
      <-> sender c = access_policy.owner policy
          \/ is_Some (access_policy.authorized_users policy !! sender c)).
Proof.
  split; [|split; [|apply can_decrypt_spec]];
    unfold access_policy.seal_approve; rewrite is_prefix_spec;
    case_bool_decide as Hp;
    destruct (access_policy.can_decrypt policy (sender c)); auto.
  - split; [intros _; split; [exact Hp | reflexivity] | reflexivity].
  - split; [discriminate | intros [_ ?]; discriminate].
  - split; [discriminate | intros [? _]; contradiction].
  - split; [discriminate | intros [? _]; contradiction].
Qed.

(** ** Revocation *)

Lemma revoke_access_Ok policy user s p' s' :
  access_policy.revoke_access policy user s = Ok (p', s') ->
  access_policy.owner policy = sender (ctx s)
  /\ is_Some (access_policy.authorized_users policy !! user)
  /\ access_policy.owner p' = access_policy.owner policy
  /\ access_policy.authorized_users p'
     = delete user (access_policy.authorized_users policy)
  /\ access_policy.total_authorized p' = access_policy.total_authorized policy - 1.
Proof.
  intros H. unfold access_policy.revoke_access in H. inv_run H.
  apply ret_Ok in H as [-> _].
  apply bool_decide_eq_true in Hm. apply table_contains_true in Hm0.
  unfold table_remove in Hm1. destruct Hm0 as [v Hv]. rewrite Hv in Hm1.
  injection Hm1 as <-. apply sub_u64_Ok in Hm2 as [-> _]. simpl.
  repeat split; eauto.
Qed.

(** ** Creation and the file manifest *)

Lemma bind_try_Ok {E A B} (x : A) (k : A -> move.M E B) s :
  bind (try (Ok x)) k s = k x s.
Proof. reflexivity. Qed.

Lemma bind_try_Err {E A B} f (k : A -> move.M E B) s :
  bind (try (Err f)) k s = Err f.
Proof. reflexivity. Qed.

Section manifest_loop.
Variables (blob_ids file_names content_types : list (list u8)).
Variables (file_sizes : list u64) (is_encrypted_flags : list bool).

Let body : nat -> list collection.FileRef -> collection.M (list collection.FileRef) :=
  fun i files =>
    let* b := try (borrow blob_ids i) in
    let* n := try (borrow file_names i) in
    let* t := try (borrow content_types i) in
    let* s := try (borrow file_sizes i) in
    let* e := try (borrow is_encrypted_flags i) in
    ret (files ++ [ {| collection.file_blob_id := b; collection.file_name := n;
                       collection.file_content_type := t;
                       collection.file_size_bytes := s;
                       collection.file_is_encrypted := e |} ]).

Lemma manifest_loop_Ok fuel :
  forall i acc s,
    length blob_ids = (i + fuel)%nat ->
    (length blob_ids <= length file_names)%nat ->
    (length blob_ids <= length content_types)%nat ->
    (length blob_ids <= length file_sizes)%nat ->
    (length blob_ids <= length is_encrypted_flags)%nat ->
    while_lt fuel i (length blob_ids) body acc s
    = Ok (acc ++ manifest (drop i blob_ids) (drop i file_names)
                   (drop i content_types) (drop i file_sizes)
                   (drop i is_encrypted_flags), s).
Proof.
  induction fuel as [|fuel IH]; intros i acc s Hlen Hn Ht Hs He; simpl.
  - rewrite (drop_ge blob_ids) by lia. simpl. rewrite app_nil_r. reflexivity.
  - replace (i <? length blob_ids)%nat with true
      by (symmetry; apply Nat.ltb_lt; lia).
    destruct (lookup_lt_is_Some_2 blob_ids i) as [b Hb]; [lia|].
    destruct (lookup_lt_is_Some_2 file_names i) as [n Hn']; [lia|].
    destruct (lookup_lt_is_Some_2 content_types i) as [t Ht']; [lia|].
    destruct (lookup_lt_is_Some_2 file_sizes i) as [z Hs']; [lia|].
    destruct (lookup_lt_is_Some_2 is_encrypted_flags i) as [e He']; [lia|].
    unfold bind at 1. unfold body at 1.
    rewrite (borrow_lookup _ _ _ Hb), (borrow_lookup _ _ _ Hn'),
      (borrow_lookup _ _ _ Ht'), (borrow_lookup _ _ _ Hs'),
      (borrow_lookup _ _ _ He').
    rewrite !bind_try_Ok. unfold ret at 1.
    rewrite IH by (try lia).
    rewrite (drop_S _ _ _ Hb), (drop_S _ _ _ Hn'), (drop_S _ _ _ Ht'),
      (drop_S _ _ _ Hs'), (drop_S _ _ _ He').
    simpl. rewrite <- app_assoc. reflexivity.
Qed.

Lemma manifest_loop_Err fuel :
  forall i acc s,
    length blob_ids = (i + fuel)%nat ->
    (i <= length file_names)%nat ->
    (i <= length content_types)%nat ->
    (i <= length file_sizes)%nat ->
    (i <= length is_encrypted_flags)%nat ->
    (length file_names < length blob_ids
     \/ length content_types < length blob_ids
     \/ length file_sizes < length blob_ids
     \/ length is_encrypted_flags < length blob_ids)%nat ->
    while_lt fuel i (length blob_ids) body acc s = Err VectorIndexOutOfBounds.
Proof.
  induction fuel as [|fuel IH]; intros i acc s Hlen Hn Ht Hs He Hshort; simpl.
  - lia.
  - replace (i <? length blob_ids)%nat with true
      by (symmetry; apply Nat.ltb_lt; lia).
    destruct (lookup_lt_is_Some_2 blob_ids i) as [b Hb]; [lia|].
    unfold bind at 1. unfold body at 1.
    rewrite (borrow_lookup _ _ _ Hb), bind_try_Ok.
    destruct (decide (length file_names <= i)%nat) as [Hn'|Hn'].
    { rewrite (borrow_short _ _ Hn'). reflexivity. }
    destruct (lookup_lt_is_Some_2 file_names i) as [n Hn'']; [lia|].
    rewrite (borrow_lookup _ _ _ Hn''), bind_try_Ok.
    destruct (decide (length content_types <= i)%nat) as [Ht'|Ht'].
    { rewrite (borrow_short _ _ Ht'). reflexivity. }
    destruct (lookup_lt_is_Some_2 content_types i) as [t Ht'']; [lia|].
    rewrite (borrow_lookup _ _ _ Ht''), bind_try_Ok.
    destruct (decide (length file_sizes <= i)%nat) as [Hs'|Hs'].
    { rewrite (borrow_short _ _ Hs'). reflexivity. }
    destruct (lookup_lt_is_Some_2 file_sizes i) as [z Hs'']; [lia|].
    rewrite (borrow_lookup _ _ _ Hs''), bind_try_Ok.
    destruct (decide (length is_encrypted_flags <= i)%nat) as [He'|He'].
    { rewrite (borrow_short _ _ He'). reflexivity. }
    destruct (lookup_lt_is_Some_2 is_encrypted_flags i) as [e He'']; [lia|].
    rewrite (borrow_lookup _ _ _ He''), bind_try_Ok.
    unfold ret at 1. apply IH; lia.
Qed.

Lemma collect_files_Ok s :
  (length blob_ids <= length file_names)%nat ->
  (length blob_ids <= length content_types)%nat ->
  (length blob_ids <= length file_sizes)%nat ->
  (length blob_ids <= length is_encrypted_flags)%nat ->
  collection.collect_files (length blob_ids) blob_ids file_names content_types
    file_sizes is_encrypted_flags s
  = Ok (manifest blob_ids file_names content_types file_sizes is_encrypted_flags, s).
Proof.
  intros. unfold collection.collect_files.
  exact (manifest_loop_Ok (length blob_ids) 0%nat [] s eq_refl
           ltac:(assumption) ltac:(assumption) ltac:(assumption) ltac:(assumption)).
Qed.

Lemma collect_files_Err s :
  (length file_names < length blob_ids
   \/ length content_types < length blob_ids
   \/ length file_sizes < length blob_ids
   \/ length is_encrypted_flags < length blob_ids)%nat ->
  collection.collect_files (length blob_ids) blob_ids file_names content_types
    file_sizes is_encrypted_flags s
  = Err VectorIndexOutOfBounds.
Proof.
  intros. unfold collection.collect_files.
  apply (manifest_loop_Err (length blob_ids) 0%nat [] s eq_refl); [lia..|assumption].
Qed.

End manifest_loop.

Lemma manifest_length bs : forall ns ts ss es,
  (length bs <= length ns)%nat -> (length bs <= length ts)%nat ->
  (length bs <= length ss)%nat -> (length bs <= length es)%nat ->
  length (manifest bs ns ts ss es) = length bs.
Proof.
  induction bs as [|b bs IH]; intros [|n ns] [|t ts] [|z ss] [|e es];
    simpl; intros; try lia.
  rewrite IH by lia. reflexivity.
Qed.

Lemma manifest_lookup bs : forall ns ts ss es i f,
  manifest bs ns ts ss es !! i = Some f ->
  bs !! i = Some (collection.file_blob_id f)
  /\ ns !! i = Some (collection.file_name f)
  /\ ts !! i = Some (collection.file_content_type f)
  /\ ss !! i = Some (collection.file_size_bytes f)
  /\ es !! i = Some (collection.file_is_encrypted f).
Proof.
  induction bs as [|b bs IH]; intros [|n ns] [|t ts] [|z ss] [|e es] i f;
    simpl; try discriminate.
  destruct i as [|i]; simpl.
  - intros [= <-]. simpl. auto.
  - apply IH.
Qed.

Lemma shared_collections_snoc l e :
  shared_collections (l ++ [e])
  = shared_collections l
    ++ match e with collection.ShareCollection c => [c] | _ => [] end.
Proof.
  unfold shared_collections. rewrite omap_app. destruct e; reflexivity.
Qed.

(** C8 (amended): [create_collection] aborts in the manifest loop, before
    any object is created, whenever one of [file_names], [content_types],
    [file_sizes], [is_encrypted_flags] is shorter than [blob_ids].
    Otherwise it succeeds and shares one collection whose manifest has
    exactly [length blob_ids] entries, the i-th built from the i-th entry
    of each array, in input order; entries of the other arrays beyond
    [length blob_ids] are not read. *)
Theorem create_collection_manifest derive_id
    (name description category : list u8) (tags covers : list (list u8))
    (blob_ids file_names content_types : list (list u8))
    (file_sizes : list u64) (is_encrypted_flags : list bool)
    (visibility : u8) (price : u64) (is_encrypted : bool) (key_hash : list u8)
    (s : env collection.effect) :
  ((length file_names < length blob_ids
    \/ length content_types < length blob_ids
    \/ length file_sizes < length blob_ids
    \/ length is_encrypted_flags < length blob_ids)%nat ->
   collection.create_collection derive_id name description category tags covers
     blob_ids file_names content_types file_sizes is_encrypted_flags
     visibility price is_encrypted key_hash s
   = Err VectorIndexOutOfBounds)
  /\ ((length blob_ids <= length file_names
       /\ length blob_ids <= length content_types
       /\ length blob_ids <= length file_sizes
       /\ length blob_ids <= length is_encrypted_flags)%nat ->
      exists c s',
        collection.create_collection derive_id name description category tags
          covers blob_ids file_names content_types file_sizes
          is_encrypted_flags visibility price is_encrypted key_hash s
        = Ok (tt, s')
        /\ shared_collections (log s') = shared_collections (log s) ++ [c]
        /\ collection.files c
           = manifest blob_ids file_names content_types file_sizes
               is_encrypted_flags
        /\ length (collection.files c) = length blob_ids
        /\ forall i f,
             collection.files c !! i = Some f ->
             blob_ids !! i = Some (collection.file_blob_id f)
             /\ file_names !! i = Some (collection.file_name f)
             /\ content_types !! i = Some (collection.file_content_type f)
             /\ file_sizes !! i = Some (collection.file_size_bytes f)
             /\ is_encrypted_flags !! i = Some (collection.file_is_encrypted f)).
Proof.
  split.
  - intros Hshort. unfold collection.create_collection. unfold bind at 1.
    rewrite collect_files_Err by exact Hshort. reflexivity.
  - intros (Hn & Ht & Hs & He). unfold collection.create_collection.
    unfold bind at 1. rewrite collect_files_Ok by assumption.
    destruct is_encrypted.
    + eexists _, _. split; [reflexivity|]. simpl.
      rewrite !shared_collections_snoc. simpl. rewrite !app_nil_r.
      split; [reflexivity|]. simpl. split; [reflexivity|].
      split; [apply manifest_length; assumption | apply manifest_lookup].
    + eexists _, _. split; [reflexivity|]. simpl.
      rewrite !shared_collections_snoc. simpl. rewrite !app_nil_r.
      split; [reflexivity|]. simpl. split; [reflexivity|].
      split; [apply manifest_length; assumption | apply manifest_lookup].
Qed.

(** C8, as stated, fails: with no blob ids and one file name the lengths
    differ, yet the call succeeds and shares a collection with an empty
    manifest. *)
Lemma create_collection_accepts_longer_arrays :
  exists c s',
    collection.create_collection sample_derive_id [] [] [] [] []
      [] [[1]] [] [] [] 0 0 false [] (sample_env alice) = Ok (tt, s')
    /\ length ([] : list (list u8)) <> length [[1] : list u8]
    /\ shared_collections (log s') = [c]
    /\ collection.files c = [].
Proof.
  eexists _, _. split; [vm_compute; reflexivity|].
  split; [discriminate|]. split; reflexivity.
Qed.

Lemma create_collection_manifest_witness :
  exists c s',
    collection.create_collection sample_derive_id [] [] [] [] []
      [[3]] [[1]] [[2]] [5] [true] 0 0 true [] (sample_env alice) = Ok (tt, s')
    /\ shared_collections (log s') = [c]
    /\ length (collection.files c) = 1%nat.
Proof.
  destruct (create_collection_manifest sample_derive_id [] [] [] [] []
              [[3]] [[1]] [[2]] [5] [true] 0 0 true [] (sample_env alice))
    as [_ H].
  destruct H as (c & s' & Hrun & Hshared & _ & Hlen & _);
    [simpl; lia|].
  exists c, s'. split; [exact Hrun|]. split; [exact Hshared | exact Hlen].
Defined.

(** ** Linking a policy to a collection *)




(** ** Metadata update *)

(** C9 (amended): when the caller is the owner and the collection is not
    deleted, [update_collection] succeeds and overwrites exactly name,
    description, category, tags, visibility and price; everything else is
    unchanged: the cover-image references, the file manifest, the four
    statistics, the encryption fields, id, owner, creation time and the
    deletion flag. *)
Theorem update_collection_frame (c : collection.Collection)
    (name description category : list u8) (tags : list (list u8))
    (visibility : u8) (price : u64) (s : env collection.effect) :
  collection.owner c = sender (ctx s) ->
  collection.is_deleted c = false ->
  exists c' s',
    collection.update_collection c name description category tags visibility
      price s = Ok (c', s')
    /\ collection.name c' = name
    /\ collection.description c' = description
    /\ collection.category c' = category
    /\ collection.tags c' = tags
    /\ collection.visibility c' = visibility
    /\ collection.price c' = price
    /\ collection.cover_image_blob_ids c' = collection.cover_image_blob_ids c
    /\ collection.files c' = collection.files c
    /\ collection.purchase_count c' = collection.purchase_count c
    /\ collection.tip_count c' = collection.tip_count c
    /\ collection.total_earnings c' = collection.total_earnings c
    /\ collection.total_tips c' = collection.total_tips c
    /\ collection.is_encrypted c' = collection.is_encrypted c
    /\ collection.encryption_key_hash c' = collection.encryption_key_hash c
    /\ collection.access_policy_id c' = collection.access_policy_id c
    /\ collection.id c' = collection.id c
    /\ collection.owner c' = collection.owner c
    /\ collection.created_at c' = collection.created_at c
    /\ collection.is_deleted c' = collection.is_deleted c.
Proof.
  intros Ho Hd. unfold collection.update_collection.
  unfold bind at 1, get_ctx at 1. unfold bind at 1.
  rewrite bool_decide_eq_true_2 by exact Ho. unfold assert at 1, ret at 1.
  unfold bind at 1. rewrite Hd. simpl.
  eexists _, _. split; [reflexivity|]. simpl. repeat split. exact Hd.
Qed.

(** C9, as stated, fails: an update by the owner replaces the name and
    leaves the cover-image references of the collection as they were. *)
Lemma update_keeps_cover_images :
  exists c' s',
    collection.update_collection sample_collection [78] [68] [67] [[84]]
      collection.VISIBILITY_PUBLIC 5 (sample_env alice) = Ok (c', s')
    /\ collection.name c' = [78]
    /\ collection.cover_image_blob_ids sample_collection = [[5]]
    /\ collection.cover_image_blob_ids c' = [[5]].
Proof.
  eexists _, _. split; [vm_compute; reflexivity|]. repeat split.
Qed.

Lemma update_collection_frame_witness :
  exists c' s',
    collection.update_collection sample_collection [78] [68] [67] [[84]]
      collection.VISIBILITY_PUBLIC 5 (sample_env alice) = Ok (c', s')
    /\ collection.price c' = 5
    /\ collection.files c' = collection.files sample_collection.
Proof.
  destruct (update_collection_frame sample_collection [78] [68] [67] [[84]]
              collection.VISIBILITY_PUBLIC 5 (sample_env alice)
              eq_refl eq_refl)
    as (c' & s' & Hrun & _ & _ & _ & _ & _ & Hp & _ & Hf & _).
  exists c', s'. split; [exact Hrun|]. split; [exact Hp | exact Hf].
Defined.

(** ** Settlement of purchases and tips *)

Lemma coin_split_Ok derive_id self amount s a b s1 :
  collection.coin_split derive_id self amount s = Ok ((a, b), s1) ->
  amount <= collection.coin_value self
  /\ a = {| collection.coin_id := derive_id (tx_hash (ctx s)) (ids_created (ctx s));
            collection.coin_value := amount |}
  /\ b = {| collection.coin_id := collection.coin_id self;
            collection.coin_value := collection.coin_value self - amount |}
  /\ s1 = {| ctx := {| sender := sender (ctx s); tx_hash := tx_hash (ctx s);
                       epoch_timestamp_ms := epoch_timestamp_ms (ctx s);
                       ids_created := ids_created (ctx s) + 1 |};
             log := log s |}.
Proof.
  intros H. unfold collection.coin_split in H. inv_run H.
  apply ret_Ok in H as [[= -> ->] ->].
  apply N.leb_le in Hm. apply sub_u64_Ok in Hm0 as [-> _]. simpl. auto.
Qed.

Lemma coin_destroy_zero_Ok c (s s1 : env collection.effect) u :
  collection.coin_destroy_zero c s = Ok (u, s1) ->
  collection.coin_value c = 0 /\ s1 = s.
Proof.
  unfold collection.coin_destroy_zero. intros H.
  apply assert_Ok in H as [H ->]. apply N.eqb_eq in H. auto.
Qed.

Lemma call_Ok {E1 E2 A} (inj : E1 -> E2) (m : move.M E1 A) s a s1 :
  call inj m s = Ok (a, s1) ->
  exists s0, m {| ctx := ctx s; log := [] |} = Ok (a, s0)
             /\ s1 = {| ctx := ctx s0; log := log s ++ map inj (log s0) |}.
Proof.
  unfold call. destruct (m _) as [[a' s0]|]; [|discriminate].
  intros [= <- <-]. eauto.
Qed.

Lemma coin_transfers_app l1 l2 :
  coin_transfers (l1 ++ l2) = coin_transfers l1 ++ coin_transfers l2.
Proof. apply omap_app. Qed.

Lemma coin_transfers_policy l : coin_transfers (map collection.Policy l) = [].
Proof. induction l as [|e l IH]; [reflexivity | exact IH]. Qed.

(** Splitting off the two payments, in the order of the source. *)
Ltac inv_split H :=
  match type of H with
  | (let '(_, _) := ?p in _) _ = Ok _ =>
      let a := fresh "coin" in let b := fresh "rest" in
      destruct p as [a b];
      match goal with
      | Hs : collection.coin_split _ _ _ _ = Ok ((a, b), _) |- _ =>
          apply coin_split_Ok in Hs as (? & -> & -> & ->)
      end
  end.


Ltac norm_env :=
  cbn [ctx log sender tx_hash epoch_timestamp_ms ids_created
       collection.coin_value collection.coin_id] in *.


Ltac inv_guards :=
  repeat match goal with
  | H : negb _ = true |- _ => apply negb_true_iff in H
  | H : (_ =? _) = true |- _ => apply N.eqb_eq in H
  | H : (_ <=? _) = true |- _ => apply N.leb_le in H
  | H : mul_u64 _ _ = Ok _ |- _ => apply mul_u64_Ok in H as [-> ?]
  | H : div_u64 _ _ = Ok _ |- _ => apply div_u64_Ok in H as [-> _]
  | H : sub_u64 _ _ = Ok _ |- _ => apply sub_u64_Ok in H as [-> ?]
  | H : add_u64 _ _ = Ok _ |- _ => apply add_u64_Ok in H as [-> ?]
  end.

(** The refund step of both purchase entry points. *)
Lemma refund_step (rest : collection.Coin) (who : address)
    (s s1 : env collection.effect) u :
  (if 0 <? collection.coin_value rest
   then emit (collection.TransferCoin rest who)
   else collection.coin_destroy_zero rest) s = Ok (u, s1) ->
  ctx s1 = ctx s
  /\ coin_transfers (log s1)
     = coin_transfers (log s)
       ++ (if 0 <? collection.coin_value rest
           then [(who, collection.coin_value rest)] else []).
Proof.
  destruct (0 <? collection.coin_value rest); intros H.
  - apply emit_Ok in H as ->. simpl. rewrite coin_transfers_app. auto.
  - apply coin_destroy_zero_Ok in H as [_ ->]. rewrite app_nil_r. auto.
Qed.

Lemma purchase_access_Ok derive_id c cfg pay s c' s' :
  collection.purchase_access derive_id c cfg pay s = Ok (c', s') ->
  collection.is_deleted c = false
  /\ collection.visibility c = collection.VISIBILITY_PAY_TO_SEE
  /\ collection.is_encrypted c = false
  /\ collection.price c <= collection.coin_value pay
  /\ collection.price c * collection.purchase_fee_bps cfg / 10000
     <= collection.price c
  /\ coin_transfers (log s')
     = coin_transfers (log s)
       ++ [(collection.owner c,
            collection.price c
            - collection.price c * collection.purchase_fee_bps cfg / 10000);
           (collection.platform_address cfg,
            collection.price c * collection.purchase_fee_bps cfg / 10000)]
       ++ (if 0 <? collection.coin_value pay - collection.price c
           then [(sender (ctx s), collection.coin_value pay - collection.price c)]
           else [])
  /\ c' = collection.set_purchase_stats c
            (collection.total_earnings c + collection.price c)
            (collection.purchase_count c + 1).
Proof.
  intros H. unfold collection.purchase_access in H. inv_run H.
  inv_split H. inv_run H. inv_split H. inv_run H. norm_env. inv_guards.
  apply ret_Ok in H as [-> ->]. norm_env.
  match goal with
  | Hr : (if _ then emit (collection.TransferCoin ?r ?w) else _) _ = Ok _ |- _ =>
      apply (refund_step r w) in Hr as [_ Hr]; norm_env
  end.
  repeat (split; [assumption|]). split; [|reflexivity].
  rewrite !coin_transfers_app. simpl. rewrite !app_nil_r.
  match goal with Hr : coin_transfers (log _) = _ |- _ => rewrite Hr end.
  rewrite !coin_transfers_app. simpl. rewrite <- !app_assoc. simpl.
  replace (collection.coin_value pay
           - (collection.price c
              - collection.price c * collection.purchase_fee_bps cfg / 10000)
           - collection.price c * collection.purchase_fee_bps cfg / 10000)
    with (collection.coin_value pay - collection.price c) by lia.
  reflexivity.
Qed.

Lemma purchase_access_encrypted_Ok derive_id c policy cfg pay s c' policy' s' :
  collection.purchase_access_encrypted derive_id c policy cfg pay s
  = Ok ((c', policy'), s') ->
  collection.is_deleted c = false
  /\ collection.visibility c = collection.VISIBILITY_PAY_TO_SEE
  /\ collection.is_encrypted c = true
  /\ collection.price c <= collection.coin_value pay
  /\ collection.price c * collection.purchase_fee_bps cfg / 10000
     <= collection.price c
  /\ coin_transfers (log s')
     = coin_transfers (log s)
       ++ [(collection.owner c,
            collection.price c
            - collection.price c * collection.purchase_fee_bps cfg / 10000);
           (collection.platform_address cfg,
            collection.price c * collection.purchase_fee_bps cfg / 10000)]
       ++ (if 0 <? collection.coin_value pay - collection.price c
           then [(sender (ctx s), collection.coin_value pay - collection.price c)]
           else [])
  /\ c' = collection.set_purchase_stats c
            (collection.total_earnings c + collection.price c)
            (collection.purchase_count c + 1).
Proof.
  intros H. unfold collection.purchase_access_encrypted in H. inv_run H.
  inv_split H. inv_run H. inv_split H. inv_run H. norm_env. inv_guards.
  apply ret_Ok in H as [[= -> ->] ->]. norm_env.
  match goal with
  | Hc : call _ _ _ = Ok _ |- _ => apply call_Ok in Hc as (sp & _ & ->)
  end.
  match goal with
  | Hr : (if _ then emit (collection.TransferCoin ?r ?w) else _) _ = Ok _ |- _ =>
      apply (refund_step r w) in Hr as [_ Hr]; norm_env
  end.
  repeat (split; [assumption|]). split; [|reflexivity].
  rewrite !coin_transfers_app, coin_transfers_policy. simpl. rewrite !app_nil_r.
  match goal with Hr : coin_transfers (log _) = _ |- _ => rewrite Hr end.
  rewrite !coin_transfers_app. simpl. rewrite <- !app_assoc. simpl.
  replace (collection.coin_value pay
           - (collection.price c
              - collection.price c * collection.purchase_fee_bps cfg / 10000)
           - collection.price c * collection.purchase_fee_bps cfg / 10000)
    with (collection.coin_value pay - collection.price c) by lia.
  reflexivity.
Qed.

Lemma tip_creator_Ok derive_id c cfg pay s c' s' :
  collection.tip_creator derive_id c cfg pay s = Ok (c', s') ->
  collection.is_deleted c = false
  /\ collection.coin_value pay * collection.tip_fee_bps cfg / 10000
     <= collection.coin_value pay
  /\ coin_transfers (log s')
     = coin_transfers (log s)
       ++ [(collection.owner c,
            collection.coin_value pay
            - collection.coin_value pay * collection.tip_fee_bps cfg / 10000);
           (collection.platform_address cfg,
            collection.coin_value pay * collection.tip_fee_bps cfg / 10000)]
  /\ c' = collection.set_tip_stats c
            (collection.total_tips c + collection.coin_value pay)
            (collection.tip_count c + 1).
Proof.
  intros H. unfold collection.tip_creator in H. inv_run H.
  inv_split H. inv_run H. inv_split H. inv_run H. norm_env. inv_guards.
  apply ret_Ok in H as [-> ->]. norm_env.
  repeat (split; [assumption|]). split; [|reflexivity].
  rewrite !coin_transfers_app. simpl. rewrite <- !app_assoc. reflexivity.
Qed.

(** Running a transaction forward, one step at a time. *)

Lemma bind_assert_true {E B} m code (k : unit -> move.M E B) s :
  bind (assert true m code) k s = k tt s.
Proof. reflexivity. Qed.

Lemma bind_assert_false {E B} m code (k : unit -> move.M E B) s :
  bind (assert false m code) k s = Err (Abort m code).
Proof. reflexivity. Qed.

Lemma bind_get_ctx {E B} (k : TxContext -> move.M E B) s :
  bind get_ctx k s = k (ctx s) s.
Proof. reflexivity. Qed.

Lemma bind_emit {E B} (e : E) (k : unit -> move.M E B) s :
  bind (emit e) k s = k tt {| ctx := ctx s; log := log s ++ [e] |}.
Proof. reflexivity. Qed.

Lemma bind_object_new {E B} derive_id (k : UID -> move.M E B) s :
  bind (object_new derive_id) k s
  = k (derive_id (tx_hash (ctx s)) (ids_created (ctx s)))
      {| ctx := {| sender := sender (ctx s); tx_hash := tx_hash (ctx s);
                   epoch_timestamp_ms := epoch_timestamp_ms (ctx s);
                   ids_created := ids_created (ctx s) + 1 |};
         log := log s |}.
Proof. reflexivity. Qed.

Lemma add_u64_fits a b : a + b <= MAX_U64 -> add_u64 a b = Ok (a + b).
Proof. intros H. unfold add_u64. apply N.leb_le in H. rewrite H. reflexivity. Qed.

Lemma sub_u64_fits a b : b <= a -> sub_u64 a b = Ok (a - b).
Proof. intros H. unfold sub_u64. apply N.leb_le in H. rewrite H. reflexivity. Qed.

Lemma sub_u64_underflow a b : a < b -> sub_u64 a b = Err ArithmeticError.
Proof. intros H. unfold sub_u64. apply N.leb_gt in H. rewrite H. reflexivity. Qed.

Lemma mul_u64_fits a b : a * b <= MAX_U64 -> mul_u64 a b = Ok (a * b).
Proof. intros H. unfold mul_u64. apply N.leb_le in H. rewrite H. reflexivity. Qed.

Lemma mul_u64_overflow a b : MAX_U64 < a * b -> mul_u64 a b = Err ArithmeticError.
Proof. intros H. unfold mul_u64. apply N.leb_gt in H. rewrite H. reflexivity. Qed.

Lemma bind_coin_split {B} derive_id self amount
    (k : collection.Coin * collection.Coin -> collection.M B) s :
  amount <= collection.coin_value self ->
  bind (collection.coin_split derive_id self amount) k s
  = k ({| collection.coin_id := derive_id (tx_hash (ctx s)) (ids_created (ctx s));
          collection.coin_value := amount |},
       {| collection.coin_id := collection.coin_id self;
          collection.coin_value := collection.coin_value self - amount |})
      {| ctx := {| sender := sender (ctx s); tx_hash := tx_hash (ctx s);
                   epoch_timestamp_ms := epoch_timestamp_ms (ctx s);
                   ids_created := ids_created (ctx s) + 1 |};
         log := log s |}.
Proof.
  intros H. unfold collection.coin_split, bind, object_new, assert, try.
  rewrite (sub_u64_fits _ _ H). apply N.leb_le in H. rewrite H. reflexivity.
Qed.

Ltac run :=
  repeat first
    [ rewrite bind_assert_true
    | rewrite bind_try_Ok
    | rewrite bind_get_ctx
    | rewrite bind_emit
    | rewrite bind_object_new ].

(** The guards and the fee arithmetic shared by both purchase entry
    points: past the guards, the call aborts with an arithmetic error when
    the fee cannot be computed or exceeds the price. *)
Lemma purchase_access_arithmetic derive_id c cfg pay s :
  collection.is_deleted c = false ->
  collection.visibility c = collection.VISIBILITY_PAY_TO_SEE ->
  collection.is_encrypted c = false ->
  collection.price c <= collection.coin_value pay ->
  MAX_U64 < collection.price c * collection.purchase_fee_bps cfg
  \/ collection.price c
     < collection.price c * collection.purchase_fee_bps cfg / 10000 ->
  collection.purchase_access derive_id c cfg pay s = Err ArithmeticError.
Proof.
  intros Hd Hv He Hp Hbad. unfold collection.purchase_access.
  rewrite Hd, Hv, He, N.eqb_refl. cbn [negb]. apply N.leb_le in Hp. rewrite Hp.
  run.
  destruct (N.le_gt_cases (collection.price c * collection.purchase_fee_bps cfg)
              MAX_U64) as [Hfit|Hover].
  - rewrite (mul_u64_fits _ _ Hfit). run.
    change (div_u64 ?a 10000) with (Ok (a / 10000) : Result N). run.
    rewrite sub_u64_underflow by lia. reflexivity.
  - rewrite (mul_u64_overflow _ _ Hover). reflexivity.
Qed.

Lemma purchase_access_encrypted_arithmetic derive_id c policy cfg pay s :
  collection.is_deleted c = false ->
  collection.visibility c = collection.VISIBILITY_PAY_TO_SEE ->
  collection.is_encrypted c = true ->
  collection.price c <= collection.coin_value pay ->
  MAX_U64 < collection.price c * collection.purchase_fee_bps cfg
  \/ collection.price c
     < collection.price c * collection.purchase_fee_bps cfg / 10000 ->
  collection.purchase_access_encrypted derive_id c policy cfg pay s
  = Err ArithmeticError.
Proof.
  intros Hd Hv He Hp Hbad. unfold collection.purchase_access_encrypted.
  rewrite Hd, Hv, He, N.eqb_refl. cbn [negb]. apply N.leb_le in Hp. rewrite Hp.
  run.
  destruct (N.le_gt_cases (collection.price c * collection.purchase_fee_bps cfg)
              MAX_U64) as [Hfit|Hover].
  - rewrite (mul_u64_fits _ _ Hfit). run.
    change (div_u64 ?a 10000) with (Ok (a / 10000) : Result N). run.
    rewrite sub_u64_underflow by lia. reflexivity.
  - rewrite (mul_u64_overflow _ _ Hover). reflexivity.
Qed.

Lemma purchase_access_succeeds derive_id c cfg pay s :
  collection.is_deleted c = false ->
  collection.visibility c = collection.VISIBILITY_PAY_TO_SEE ->
  collection.is_encrypted c = false ->
  collection.price c <= collection.coin_value pay ->
  collection.price c * collection.purchase_fee_bps cfg <= MAX_U64 ->
  collection.price c * collection.purchase_fee_bps cfg / 10000
  <= collection.price c ->
  collection.total_earnings c + collection.price c <= MAX_U64 ->
  collection.purchase_count c + 1 <= MAX_U64 ->
  exists c' s', collection.purchase_access derive_id c cfg pay s = Ok (c', s').
Proof.
  intros Hd Hv He Hp Hmul Hfee Hearn Hcount. unfold collection.purchase_access.
  rewrite Hd, Hv, He, N.eqb_refl. cbn [negb].
  rewrite (proj2 (N.leb_le _ _) Hp). run.
  rewrite (mul_u64_fits _ _ Hmul). run.
  change (div_u64 ?a 10000) with (Ok (a / 10000) : Result N). run.
  rewrite (sub_u64_fits _ _ Hfee). run.
  rewrite bind_coin_split by (etransitivity; [apply N.le_sub_l | eassumption]).
  rewrite bind_coin_split by (cbn [collection.coin_value]; clear - Hp Hfee; lia).
  run. rewrite (add_u64_fits _ _ Hearn), (add_u64_fits _ _ Hcount).
  cbn [collection.coin_value].
  destruct (0 <? _) eqn:Hrefund.
  - run. eexists _, _. reflexivity.
  - unfold collection.coin_destroy_zero. cbn [collection.coin_value].
    apply N.ltb_ge in Hrefund. apply N.le_0_r, N.eqb_eq in Hrefund.
    rewrite Hrefund. run. eexists _, _. reflexivity.
Qed.

(** What is left of an amount after splitting off all but the fee and then
    the fee. *)
Lemma split_leaves_nothing (v f : N) : f <= v -> (v - (v - f) - f =? 0) = true.
Proof. intros H. apply N.eqb_eq. lia. Qed.

Lemma tip_creator_succeeds derive_id c cfg pay s :
  collection.is_deleted c = false ->
  collection.coin_value pay * collection.tip_fee_bps cfg <= MAX_U64 ->
  collection.coin_value pay * collection.tip_fee_bps cfg / 10000
  <= collection.coin_value pay ->
  collection.total_tips c + collection.coin_value pay <= MAX_U64 ->
  collection.tip_count c + 1 <= MAX_U64 ->
  exists c' s', collection.tip_creator derive_id c cfg pay s = Ok (c', s').
Proof.
  intros Hd Hmul Hfee Htips Hcount. unfold collection.tip_creator.
  rewrite Hd. cbn [negb]. run.
  rewrite (mul_u64_fits _ _ Hmul). run.
  change (div_u64 ?a 10000) with (Ok (a / 10000) : Result N). run.
  rewrite (sub_u64_fits _ _ Hfee). run.
  rewrite bind_coin_split by apply N.le_sub_l.
  rewrite bind_coin_split by (cbn [collection.coin_value]; clear - Hfee; lia).
  run. unfold collection.coin_destroy_zero. cbn [collection.coin_value].
  rewrite (split_leaves_nothing _ _ Hfee).
  run. rewrite (add_u64_fits _ _ Htips), (add_u64_fits _ _ Hcount). run.
  eexists _, _. reflexivity.
Qed.

Lemma grant_access_runs policy user s :
  table_contains (access_policy.authorized_users policy) user = true
  \/ access_policy.total_authorized policy + 1 <= MAX_U64 ->
  exists policy' s', access_policy.grant_access policy user s = Ok (policy', s').
Proof.
  intros H. unfold access_policy.grant_access.
  destruct (table_contains _ _) eqn:Hin; simpl.
  - eexists _, _. reflexivity.
  - destruct H as [H|H]; [discriminate|].
    apply table_contains_false in Hin. unfold table_add. rewrite Hin. run.
    rewrite (add_u64_fits _ _ H). run. eexists _, _. reflexivity.
Qed.

Lemma bind_call {E1 E2 A B} (inj : E1 -> E2) (m : move.M E1 A)
    (k : A -> move.M E2 B) s a s0 :
  m {| ctx := ctx s; log := [] |} = Ok (a, s0) ->
  bind (call inj m) k s
  = k a {| ctx := ctx s0; log := log s ++ map inj (log s0) |}.
Proof. intros H. unfold bind, call. rewrite H. reflexivity. Qed.

Lemma purchase_access_encrypted_succeeds derive_id c policy cfg pay s :
  collection.is_deleted c = false ->
  collection.visibility c = collection.VISIBILITY_PAY_TO_SEE ->
  collection.is_encrypted c = true ->
  collection.price c <= collection.coin_value pay ->
  collection.price c * collection.purchase_fee_bps cfg <= MAX_U64 ->
  collection.price c * collection.purchase_fee_bps cfg / 10000
  <= collection.price c ->
  collection.total_earnings c + collection.price c <= MAX_U64 ->
  collection.purchase_count c + 1 <= MAX_U64 ->
  table_contains (access_policy.authorized_users policy) (sender (ctx s)) = true
  \/ access_policy.total_authorized policy + 1 <= MAX_U64 ->
  exists r s',
    collection.purchase_access_encrypted derive_id c policy cfg pay s = Ok (r, s').
Proof.
  intros Hd Hv He Hp Hmul Hfee Hearn Hcount Hgrant.
  unfold collection.purchase_access_encrypted.
  rewrite Hd, Hv, He, N.eqb_refl. cbn [negb].
  rewrite (proj2 (N.leb_le _ _) Hp). run.
  rewrite (mul_u64_fits _ _ Hmul). run.
  change (div_u64 ?a 10000) with (Ok (a / 10000) : Result N). run.
  rewrite (sub_u64_fits _ _ Hfee). run.
  rewrite bind_coin_split by (etransitivity; [apply N.le_sub_l | eassumption]).
  rewrite bind_coin_split by (cbn [collection.coin_value]; clear - Hp Hfee; lia).
  run. rewrite (add_u64_fits _ _ Hearn), (add_u64_fits _ _ Hcount).
  cbn [collection.coin_value].
  assert (Hzero : forall x, (0 <? x) = false -> (x =? 0) = true).
  { intros x Hx. apply N.ltb_ge in Hx. apply N.eqb_eq. lia. }
  destruct (0 <? _) eqn:Hrefund;
    [| unfold collection.coin_destroy_zero; cbn [collection.coin_value];
       rewrite (Hzero _ Hrefund) ];
    run; cbn [ctx sender];
    match goal with
    | |- context [bind (call _ (access_policy.grant_access ?p ?u)) _ ?s1] =>
        destruct (grant_access_runs p u {| ctx := ctx s1; log := [] |} Hgrant)
          as (p' & s0 & Hg);
        rewrite (bind_call _ _ _ _ _ _ Hg)
    end;
    run; eexists _, _; reflexivity.
Qed.

(** C2: every successful purchase, through [purchase_access] or through
    [purchase_access_encrypted], is on a collection that is not deleted and
    is pay-to-see, with a payment of at least the price; the platform fee
    is floor(price * purchase_fee_bps / 10000); the owner is sent the price
    less the fee, the platform address the fee, and the caller what the
    payment exceeds the price by (no transfer when that is zero), so the
    two payments add up to the price and all three to the payment;
    [purchase_count] grows by 1 and [total_earnings] by the price.  Such
    purchases exist: with these conditions, a fee not above the price and
    counters that fit a u64, both entry points succeed. *)
Theorem purchase_settlement derive_id (c : collection.Collection)
    (policy : access_policy.CollectionAccessPolicy)
    (cfg : collection.PlatformConfig) (pay : collection.Coin)
    (s : env collection.effect) :
  (forall c' s',
      collection.purchase_access derive_id c cfg pay s = Ok (c', s') ->
      purchase_settled c cfg pay s s' c')
  /\ (forall c' policy' s',
         collection.purchase_access_encrypted derive_id c policy cfg pay s
         = Ok ((c', policy'), s') ->
         purchase_settled c cfg pay s s' c')
  /\ (collection.is_deleted c = false ->
      collection.visibility c = collection.VISIBILITY_PAY_TO_SEE ->
      collection.price c <= collection.coin_value pay ->
      collection.price c * collection.purchase_fee_bps cfg <= MAX_U64 ->
      collection.purchase_fee_bps cfg <= 10000 ->
      collection.total_earnings c + collection.price c <= MAX_U64 ->
      collection.purchase_count c + 1 <= MAX_U64 ->
      access_policy.total_authorized policy + 1 <= MAX_U64 ->
      if collection.is_encrypted c
      then exists r s',
          collection.purchase_access_encrypted derive_id c policy cfg pay s
          = Ok (r, s')
      else exists c' s',
          collection.purchase_access derive_id c cfg pay s = Ok (c', s')).
Proof.
  split; [|split].
  - intros c' s' H.
    apply purchase_access_Ok in H as (Hd & Hv & _ & Hp & Hfee & Ht & ->).
    unfold purchase_settled. cbn zeta. simpl.
    repeat split; try assumption; lia.
  - intros c' policy' s' H.
    apply purchase_access_encrypted_Ok in H as (Hd & Hv & _ & Hp & Hfee & Ht & ->).
    unfold purchase_settled. cbn zeta. simpl.
    repeat split; try assumption; lia.
  - intros Hd Hv Hp Hmul Hbps Hearn Hcount Hauth.
    assert (Hfee : collection.price c * collection.purchase_fee_bps cfg / 10000
                   <= collection.price c).
    { apply N.Div0.div_le_upper_bound. nia. }
    destruct (collection.is_encrypted c) eqn:He.
    + apply purchase_access_encrypted_succeeds; auto.
    + apply purchase_access_succeeds; auto.
Qed.

(** The scenario of a 1000 price at 250 basis points paid with 1500. *)
Lemma purchase_settlement_witness :
  exists c' s',
    collection.purchase_access sample_derive_id sample_collection sample_config
      (sample_coin 1500) (sample_env bob) = Ok (c', s')
    /\ coin_transfers (log s') = [(alice, 975); (platform, 25); (bob, 500)]
    /\ collection.purchase_count c' = 1
    /\ collection.total_earnings c' = 1000.
Proof.
  destruct (purchase_access_succeeds sample_derive_id sample_collection
              sample_config (sample_coin 1500) (sample_env bob))
    as (c' & s' & Hrun); try reflexivity; try (vm_compute; discriminate).
  exists c', s'. split; [exact Hrun|].
  destruct (purchase_settlement sample_derive_id sample_collection
              linked_policy sample_config (sample_coin 1500) (sample_env bob))
    as [Hsettled _].
  destruct (Hsettled c' s' Hrun) as (_ & _ & _ & _ & _ & Ht & Hc & He).
  split; [exact Ht|]. split; [exact Hc | exact He].
Defined.

(** C6: every successful tip is on a collection that is not deleted; the
    platform fee is floor(tip_amount * tip_fee_bps / 10000); the owner is
    sent the tip less the fee and the platform address the fee, the two
    adding up to the tip, with no third transfer; [tip_count] grows by 1
    and [total_tips] by the tip.  Tips succeed whatever the visibility and
    the price, for any amount, when the fee rate is at most 10000 and the
    counters fit a u64. *)
Theorem tip_settlement derive_id (c : collection.Collection)
    (cfg : collection.PlatformConfig) (pay : collection.Coin)
    (s : env collection.effect) :
  (forall c' s',
      collection.tip_creator derive_id c cfg pay s = Ok (c', s') ->
      tip_settled c cfg pay s s' c')
  /\ (collection.is_deleted c = false ->
      collection.coin_value pay * collection.tip_fee_bps cfg <= MAX_U64 ->
      collection.tip_fee_bps cfg <= 10000 ->
      collection.total_tips c + collection.coin_value pay <= MAX_U64 ->
      collection.tip_count c + 1 <= MAX_U64 ->
      exists c' s', collection.tip_creator derive_id c cfg pay s = Ok (c', s')).
Proof.
  split.
  - intros c' s' H. apply tip_creator_Ok in H as (Hd & Hfee & Ht & ->).
    unfold tip_settled. cbn zeta. simpl.
    repeat split; try assumption; lia.
  - intros Hd Hmul Hbps Htips Hcount.
    apply tip_creator_succeeds; auto.
    apply N.Div0.div_le_upper_bound. nia.
Qed.

(** The scenario of a tip of 500 at 100 basis points. *)
Lemma tip_settlement_witness :
  exists c' s',
    collection.tip_creator sample_derive_id sample_collection sample_config
      (sample_coin 500) (sample_env bob) = Ok (c', s')
    /\ coin_transfers (log s') = [(alice, 495); (platform, 5)]
    /\ collection.tip_count c' = 1
    /\ collection.total_tips c' = 500.
Proof.
  destruct (tip_settlement sample_derive_id sample_collection sample_config
              (sample_coin 500) (sample_env bob)) as [Hsettled Hruns].
  destruct Hruns as (c' & s' & Hrun);
    try reflexivity; try (vm_compute; discriminate).
  exists c', s'. split; [exact Hrun|].
  destruct (Hsettled c' s' Hrun) as (_ & _ & Ht & Hc & Hs).
  split; [exact Ht|]. split; [exact Hc | exact Hs].
Defined.

(** ** Fee configuration *)

Lemma update_platform_fees_Ok config purchase_fee_bps tip_fee_bps s :
  collection.platform_address config = sender (ctx s) ->
  collection.update_platform_fees config purchase_fee_bps tip_fee_bps s
  = Ok ({| collection.config_id := collection.config_id config;
           collection.platform_address := collection.platform_address config;
           collection.purchase_fee_bps := purchase_fee_bps;
           collection.tip_fee_bps := tip_fee_bps |}, s).
Proof.
  intros H. unfold collection.update_platform_fees. run.
  rewrite bool_decide_eq_true_2 by exact H. run. reflexivity.
Qed.

Lemma fee_exceeds_price (price bps : N) :
  10000 <= price * (bps - 10000) -> price < price * bps / 10000.
Proof.
  intros H.
  assert (Hq : price + 1 <= price * bps / 10000); [|lia].
  apply N.div_le_lower_bound; [discriminate|].
  destruct (N.le_gt_cases bps 10000) as [Hle|Hgt].
  - replace (bps - 10000) with 0 in H by lia. lia.
  - replace bps with (10000 + (bps - 10000)) at 1 by lia.
    rewrite N.mul_add_distr_l. lia.
Qed.

Lemma fee_equals_price (price bps : N) :
  10000 < bps -> price * (bps - 10000) < 10000 -> price * bps / 10000 = price.
Proof.
  intros Hbps Hsmall. symmetry.
  apply (N.div_unique (price * bps) 10000 price (price * (bps - 10000)));
    [exact Hsmall|].
  replace bps with (10000 + (bps - 10000)) at 1 by lia.
  rewrite N.mul_add_distr_l. lia.
Qed.

Lemma small_price_product_fits (price bps : N) :
  10000 < bps -> price * (bps - 10000) < 10000 -> price * bps <= MAX_U64.
Proof.
  intros Hbps Hsmall.
  assert (Hsplit : price * bps = 10000 * price + price * (bps - 10000)).
  { replace bps with (10000 + (bps - 10000)) at 1 by lia.
    rewrite N.mul_add_distr_l. lia. }
  assert (Hprice : price <= price * (bps - 10000)).
  { rewrite <- (N.mul_1_r price) at 1. apply N.mul_le_mono_l. lia. }
  rewrite Hsplit. unfold MAX_U64. lia.
Qed.

(** C10 (amended): [update_platform_fees] checks the caller only and
    stores any two values.  With a purchase rate above 10000, a purchase
    that passes the guards aborts with an arithmetic error, not an error
    of the module, whenever price * (purchase_fee_bps - 10000) >= 10000
    (so for every price of 10000 or more): the product price * rate
    overflows, or the fee exceeds the price and price - fee underflows.
    For smaller prices, price * (purchase_fee_bps - 10000) < 10000, the
    rounded fee equals the price, and a purchase that passes the guards
    and whose counters fit a u64 succeeds: the owner is sent 0, the
    platform address the whole price, the caller the excess. *)
Theorem unchecked_fee_rate_aborts_purchase derive_id
    (config : collection.PlatformConfig) (purchase_fee_bps tip_fee_bps : u64)
    (s0 : env collection.effect)
    (c : collection.Collection) (policy : access_policy.CollectionAccessPolicy)
    (pay : collection.Coin) (s : env collection.effect) :
  (collection.platform_address config = sender (ctx s0) ->
   exists config',
     collection.update_platform_fees config purchase_fee_bps tip_fee_bps s0
     = Ok (config', s0)
     /\ collection.purchase_fee_bps config' = purchase_fee_bps
     /\ collection.tip_fee_bps config' = tip_fee_bps)
  /\ (10000 < collection.purchase_fee_bps config ->
      10000 <= collection.price c * (collection.purchase_fee_bps config - 10000) ->
      collection.is_deleted c = false ->
      collection.visibility c = collection.VISIBILITY_PAY_TO_SEE ->
      collection.price c <= collection.coin_value pay ->
      (MAX_U64 < collection.price c * collection.purchase_fee_bps config
       \/ sub_u64 (collection.price c)
            (collection.price c * collection.purchase_fee_bps config / 10000)
          = Err ArithmeticError)
      /\ if collection.is_encrypted c
         then collection.purchase_access_encrypted derive_id c policy config pay s
              = Err ArithmeticError
         else collection.purchase_access derive_id c config pay s
              = Err ArithmeticError)
  /\ (10000 < collection.purchase_fee_bps config ->
      collection.price c * (collection.purchase_fee_bps config - 10000) < 10000 ->
      collection.is_deleted c = false ->
      collection.visibility c = collection.VISIBILITY_PAY_TO_SEE ->
      collection.price c <= collection.coin_value pay ->
      collection.total_earnings c + collection.price c <= MAX_U64 ->
      collection.purchase_count c + 1 <= MAX_U64 ->
      access_policy.total_authorized policy + 1 <= MAX_U64 ->
      let whole_price_to_platform (s' : env collection.effect) :=
        coin_transfers (log s')
        = coin_transfers (log s)
          ++ [(collection.owner c, 0);
              (collection.platform_address config, collection.price c)]
          ++ (if 0 <? collection.coin_value pay - collection.price c
              then [(sender (ctx s),
                     collection.coin_value pay - collection.price c)]
              else []) in
      collection.price c * collection.purchase_fee_bps config / 10000
      = collection.price c
      /\ if collection.is_encrypted c
         then exists c' policy' s',
             collection.purchase_access_encrypted derive_id c policy config pay s
             = Ok ((c', policy'), s')
             /\ whole_price_to_platform s'
         else exists c' s',
             collection.purchase_access derive_id c config pay s = Ok (c', s')
             /\ whole_price_to_platform s').
Proof.
  split; [|split].
  - intros H. eexists. split; [apply update_platform_fees_Ok; exact H|].
    split; reflexivity.
  - intros Hbps Hbig Hd Hv Hp.
    pose proof (fee_exceeds_price _ _ Hbig) as Hfee. split.
    + right. apply sub_u64_underflow. exact Hfee.
    + destruct (collection.is_encrypted c) eqn:He.
      * apply purchase_access_encrypted_arithmetic; auto.
      * apply purchase_access_arithmetic; auto.
  - intros Hbps Hsmall Hd Hv Hp Hearn Hcount Hauth. cbn zeta.
    pose proof (fee_equals_price _ _ Hbps Hsmall) as Hfee.
    pose proof (small_price_product_fits _ _ Hbps Hsmall) as Hmul.
    split; [exact Hfee|].
    assert (Hle : collection.price c * collection.purchase_fee_bps config / 10000
                  <= collection.price c) by (rewrite Hfee; apply N.le_refl).
    destruct (collection.is_encrypted c) eqn:He.
    + destruct (purchase_access_encrypted_succeeds derive_id c policy config pay s
                  Hd Hv He Hp Hmul Hle Hearn Hcount (or_intror Hauth))
        as ([c' p'] & s' & Hrun).
      exists c', p', s'. split; [exact Hrun|].
      apply purchase_access_encrypted_Ok in Hrun as (_ & _ & _ & _ & _ & Ht & _).
      rewrite Ht, Hfee, N.sub_diag. reflexivity.
    + destruct (purchase_access_succeeds derive_id c config pay s
                  Hd Hv He Hp Hmul Hle Hearn Hcount) as (c' & s' & Hrun).
      exists c', s'. split; [exact Hrun|].
      apply purchase_access_Ok in Hrun as (_ & _ & _ & _ & _ & Ht & _).
      rewrite Ht, Hfee, N.sub_diag. reflexivity.
Qed.

(** C10, as stated, fails: the platform sets the purchase rate to 10001;
    a collection priced 1 is then bought for 1, the fee rounds down to 1,
    nothing underflows and the purchase succeeds. *)
Lemma rate_above_10000_small_price_succeeds :
  exists c' s',
    collection.update_platform_fees sample_config 10001 100 (sample_env platform)
    = Ok (greedy_config, sample_env platform)
    /\ 10000 < collection.purchase_fee_bps greedy_config
    /\ 0 < collection.price cheap_collection
    /\ collection.purchase_access sample_derive_id cheap_collection greedy_config
         (sample_coin 1) (sample_env bob) = Ok (c', s')
    /\ coin_transfers (log s') = [(alice, 0); (platform, 1)].
Proof.
  eexists _, _. split; [reflexivity|]. split; [reflexivity|].
  split; [reflexivity|]. split; [vm_compute; reflexivity | reflexivity].
Qed.

(** At rate 20000 a purchase priced 1000 aborts; at rate 10001 a purchase
    priced 1 succeeds and the platform takes the whole price. *)
Lemma unchecked_fee_rate_aborts_purchase_witness :
  collection.purchase_access sample_derive_id sample_collection doubling_config
    (sample_coin 1000) (sample_env bob) = Err ArithmeticError
  /\ exists c' s',
      collection.purchase_access sample_derive_id cheap_collection greedy_config
        (sample_coin 1) (sample_env bob) = Ok (c', s')
      /\ coin_transfers (log s') = [(alice, 0); (platform, 1)].
Proof.
  split.
  - destruct (unchecked_fee_rate_aborts_purchase sample_derive_id doubling_config
                0 0 (sample_env platform) sample_collection linked_policy
                (sample_coin 1000) (sample_env bob)) as (_ & H & _).
    refine (proj2 (H _ _ _ _ _)); try reflexivity; vm_compute; discriminate.
  - destruct (unchecked_fee_rate_aborts_purchase sample_derive_id greedy_config
                0 0 (sample_env platform) cheap_collection linked_policy
                (sample_coin 1) (sample_env bob)) as (_ & _ & H).
    destruct H as [_ H]; try reflexivity; try (vm_compute; discriminate).
    simpl in H. destruct H as (c' & s' & Hrun & Ht).
    exists c', s'. split; [exact Hrun | exact Ht].
Defined.

(** ** Soft deletion *)

Lemma deleted_call_rejected derive_id c k s :
  collection.is_deleted c = true ->
  exists code,
    run_collection_call derive_id k c s = Err (Abort m_collection code)
    /\ (code = collection.ECollectionDeleted \/ code = collection.ENotOwner).
Proof.
  intros Hd.
  destruct k as [n d cat tags v p | | cfg pay | policy cfg pay | cfg pay]; simpl.
  - unfold collection.update_collection. run.
    destruct (bool_decide (collection.owner c = sender (ctx s))).
    + run. rewrite Hd. eexists. split; [reflexivity | auto].
    + eexists. split; [reflexivity | auto].
  - unfold collection.delete_collection. run.
    destruct (bool_decide (collection.owner c = sender (ctx s))).
    + run. rewrite Hd. eexists. split; [reflexivity | auto].
    + eexists. split; [reflexivity | auto].
  - unfold collection.purchase_access. rewrite Hd.
    eexists. split; [reflexivity | auto].
  - unfold collection.purchase_access_encrypted, bind at 1. rewrite Hd.
    eexists. split; [reflexivity | auto].
  - unfold collection.tip_creator. rewrite Hd.
    eexists. split; [reflexivity | auto].
Qed.

Lemma commit_all_deleted derive_id txs c :
  collection.is_deleted c = true -> commit_all derive_id txs c = c.
Proof.
  intros Hd. unfold commit_all. induction txs as [|[k s] txs IH]; [reflexivity|].
  simpl. unfold commit at 2. simpl.
  destruct (deleted_call_rejected derive_id c k s Hd) as (code & -> & _).
  exact IH.
Qed.

(** C3: on a collection whose [is_deleted] flag is set, whatever its
    visibility, [purchase_access], [purchase_access_encrypted] and
    [tip_creator] abort with [ECollectionDeleted], and [update_collection]
    and [delete_collection] abort with [ECollectionDeleted] for the owner
    and [ENotOwner] for anyone else; an aborted call changes nothing, so
    after any sequence of calls the collection is the same and the flag
    is still set. *)
Theorem deleted_collection_rejects derive_id (c : collection.Collection) :
  collection.is_deleted c = true ->
  (forall cfg pay s,
      collection.purchase_access derive_id c cfg pay s
      = Err (Abort m_collection collection.ECollectionDeleted))
  /\ (forall policy cfg pay s,
         collection.purchase_access_encrypted derive_id c policy cfg pay s
         = Err (Abort m_collection collection.ECollectionDeleted))
  /\ (forall cfg pay s,
         collection.tip_creator derive_id c cfg pay s
         = Err (Abort m_collection collection.ECollectionDeleted))
  /\ (forall name description category tags visibility price s,
         collection.update_collection c name description category tags
           visibility price s
         = Err (Abort m_collection
                  (if bool_decide (collection.owner c = sender (ctx s))
                   then collection.ECollectionDeleted
                   else collection.ENotOwner)))
  /\ (forall s,
         collection.delete_collection c s
         = Err (Abort m_collection
                  (if bool_decide (collection.owner c = sender (ctx s))
                   then collection.ECollectionDeleted
                   else collection.ENotOwner)))
  /\ (forall txs,
         commit_all derive_id txs c = c
         /\ collection.is_deleted (commit_all derive_id txs c) = true).
Proof.
  intros Hd. repeat split.
  - intros. unfold collection.purchase_access. rewrite Hd. reflexivity.
  - intros. unfold collection.purchase_access_encrypted. rewrite Hd. reflexivity.
  - intros. unfold collection.tip_creator. rewrite Hd. reflexivity.
  - intros. unfold collection.update_collection. run.
    destruct (bool_decide _); [run; rewrite Hd|]; reflexivity.
  - intros. unfold collection.delete_collection. run.
    destruct (bool_decide _); [run; rewrite Hd|]; reflexivity.
  - apply commit_all_deleted. exact Hd.
  - rewrite commit_all_deleted by exact Hd. exact Hd.
Qed.

Lemma deleted_collection_rejects_witness :
  collection.tip_creator sample_derive_id deleted_collection sample_config
    (sample_coin 500) (sample_env bob)
  = Err (Abort m_collection collection.ECollectionDeleted)
  /\ commit_all sample_derive_id
       [(Delete, sample_env alice);
        (Update [78] [68] [67] [[84]] collection.VISIBILITY_PUBLIC 5,
         sample_env alice);
        (Purchase sample_config (sample_coin 1500), sample_env bob)]
       deleted_collection
     = deleted_collection.
Proof.
  destruct (deleted_collection_rejects sample_derive_id deleted_collection
              eq_refl) as (_ & _ & Htip & _ & _ & Hall).
  split; [apply Htip | apply Hall].
Defined.

(** ** Closed runs of the registry *)

Lemma owner_listed_policy_reachable :
  reachable sample_derive_id owner_listed_policy.
Proof.
  apply (reach_call sample_derive_id linked_policy (Grant alice)
           (sample_env alice) owner_listed_policy
           {| ctx := sample_ctx alice;
              log := [access_policy.Emit (access_policy.AccessGranted [9] alice 0)] |}).
  - apply (reach_create sample_derive_id [1] alice
             {| ctx := {| sender := alice; tx_hash := []; epoch_timestamp_ms := 1000;
                          ids_created := 9 |};
                log := [] |}
             linked_policy
             {| ctx := {| sender := alice; tx_hash := []; epoch_timestamp_ms := 1000;
                          ids_created := 10 |};
                log := [] |}).
    reflexivity.
  - vm_compute. reflexivity.
Qed.

Lemma total_authorized_is_cardinality_witness :
  reachable sample_derive_id owner_listed_policy
  /\ access_policy.total_authorized owner_listed_policy
     = N.of_nat (size (access_policy.authorized_users owner_listed_policy)).
Proof.
  split; [exact owner_listed_policy_reachable|].
  exact (total_authorized_is_cardinality sample_derive_id owner_listed_policy
           owner_listed_policy_reachable).
Defined.

(** C7, as stated, fails for the owner: alice owns the policy and also
    holds an entry of her own; she revokes it, the entry is gone and the
    counter is back to 0, and [can_decrypt] still answers true for her. *)
Lemma revoked_owner_still_decrypts :
  exists policy' s',
    access_policy.revoke_access owner_listed_policy alice (sample_env alice)
    = Ok (policy', s')
    /\ access_policy.authorized_users policy' !! alice = None
    /\ access_policy.total_authorized policy' = 0
    /\ access_policy.can_decrypt policy' alice = true.
Proof.
  eexists _, _. split; [vm_compute; reflexivity|].
  split; [reflexivity|]. split; reflexivity.
Qed.

Lemma seal_approve_accepts_iff_witness :
  access_policy.seal_approve [9; 42] owner_listed_policy (sample_ctx alice) = Ok tt
  /\ access_policy.seal_approve [8; 42] owner_listed_policy (sample_ctx alice)
     = Err (Abort m_access_policy access_policy.ENotAuthorized)
  /\ access_policy.seal_approve [9; 42] owner_listed_policy (sample_ctx bob)
     = Err (Abort m_access_policy access_policy.ENotAuthorized).
Proof.
  split.
  - apply (seal_approve_accepts_iff [9; 42] owner_listed_policy (sample_ctx alice)).
    split; [exists [42]; reflexivity | reflexivity].
  - split; reflexivity.
Defined.

(** * Further properties of the two modules *)

(** ** Granting *)

Lemma grant_access_present policy user s :
  table_contains (access_policy.authorized_users policy) user = true ->
  access_policy.grant_access policy user s = Ok (policy, s).
Proof. intros H. unfold access_policy.grant_access. rewrite H. reflexivity. Qed.

Lemma grant_access_absent policy user s :
  table_contains (access_policy.authorized_users policy) user = false ->
  access_policy.total_authorized policy + 1 <= MAX_U64 ->
  access_policy.grant_access policy user s
  = Ok (access_policy.set_users policy
          (<[user := true]> (access_policy.authorized_users policy))
          (access_policy.total_authorized policy + 1),
        {| ctx := ctx s;
           log := log s ++ [access_policy.Emit
                              (access_policy.AccessGranted (access_policy.id policy)
                                 user 0)] |}).
Proof.
  intros Hin Hfit. unfold access_policy.grant_access. rewrite Hin. cbn [negb].
  apply table_contains_false in Hin. unfold table_add. rewrite Hin. run.
  rewrite (add_u64_fits _ _ Hfit). run. reflexivity.
Qed.

Lemma grant_access_inv policy user s policy' s' :
  access_policy.grant_access policy user s = Ok (policy', s') ->
  (table_contains (access_policy.authorized_users policy) user = true
   /\ policy' = policy /\ s' = s)
  \/ (table_contains (access_policy.authorized_users policy) user = false
      /\ access_policy.total_authorized policy + 1 <= MAX_U64
      /\ policy' = access_policy.set_users policy
                     (<[user := true]> (access_policy.authorized_users policy))
                     (access_policy.total_authorized policy + 1)
      /\ s' = {| ctx := ctx s;
                 log := log s ++ [access_policy.Emit
                                    (access_policy.AccessGranted
                                       (access_policy.id policy) user 0)] |}).
Proof.
  intros H. destruct (table_contains _ _) eqn:Hin.
  - rewrite grant_access_present in H by exact Hin. injection H as <- <-. auto.
  - right. unfold access_policy.grant_access in H. rewrite Hin in H.
    cbn [negb] in H. inv_run H. apply ret_Ok in H as [-> ->].
    apply add_u64_Ok in Hm0 as [-> Hfit].
    apply table_contains_false in Hin. unfold table_add in Hm. rewrite Hin in Hm.
    injection Hm as <-. apply table_contains_false in Hin. auto.
Qed.

Lemma table_contains_insert t k v k' :
  table_contains (<[k := v]> t) k' = bool_decide (k = k') || table_contains t k'.
Proof.
  unfold table_contains. destruct (decide (k = k')) as [->|Hk].
  - rewrite lookup_insert_eq, (bool_decide_eq_true_2 (k' = k')) by reflexivity.
    apply bool_decide_eq_true_2. eauto.
  - rewrite lookup_insert_ne by exact Hk.
    rewrite (bool_decide_eq_false_2 (k = k')) by exact Hk. reflexivity.
Qed.

Lemma table_contains_delete t k k' :
  table_contains (delete k t) k' = negb (bool_decide (k = k')) && table_contains t k'.
Proof.
  unfold table_contains. destruct (decide (k = k')) as [->|Hk].
  - rewrite lookup_delete_eq, (bool_decide_eq_true_2 (k' = k')) by reflexivity.
    apply bool_decide_eq_false_2. intros [? ?]; discriminate.
  - rewrite lookup_delete_ne by exact Hk.
    rewrite (bool_decide_eq_false_2 (k = k')) by exact Hk. reflexivity.
Qed.

(** X1: a successful [grant_access] leaves the user with an entry and able
    to decrypt, touches no other principal's entry, keeps id, owner and
    link, and raises [total_authorized] by one exactly when the user had no
    entry before. *)
Theorem grant_access_effect policy user s policy' s' :
  access_policy.grant_access policy user s = Ok (policy', s') ->
  access_policy.has_explicit_access policy' user = true
  /\ access_policy.can_decrypt policy' user = true
  /\ (forall other, other <> user ->
        access_policy.has_explicit_access policy' other
        = access_policy.has_explicit_access policy other)
  /\ access_policy.id policy' = access_policy.id policy
  /\ access_policy.owner policy' = access_policy.owner policy
  /\ access_policy.collection_id policy' = access_policy.collection_id policy
  /\ access_policy.total_authorized policy'
     = access_policy.total_authorized policy
       + (if access_policy.has_explicit_access policy user then 0 else 1).
Proof.
  intros H. unfold access_policy.has_explicit_access.
  apply grant_access_inv in H as [(Hin & -> & _) | (Hin & _ & -> & _)].
  - rewrite Hin. unfold access_policy.can_decrypt. rewrite Hin.
    repeat split; try reflexivity.
    + destruct (bool_decide _); reflexivity.
    + lia.
  - rewrite Hin. unfold access_policy.can_decrypt. simpl.
    rewrite table_contains_insert, bool_decide_eq_true_2 by reflexivity. simpl.
    repeat split; try reflexivity.
    + destruct (bool_decide _); reflexivity.
    + intros other Hne. rewrite table_contains_insert.
      rewrite bool_decide_eq_false_2 by congruence. reflexivity.
Qed.

Lemma grant_access_effect_witness :
  exists policy' s',
    access_policy.grant_access linked_policy bob (sample_env bob) = Ok (policy', s')
    /\ access_policy.has_explicit_access policy' bob = true
    /\ access_policy.total_authorized policy' = 1.
Proof.
  destruct (grant_access_runs linked_policy bob (sample_env bob))
    as (p' & s' & Hrun); [right; vm_compute; discriminate|].
  exists p', s'. split; [exact Hrun|].
  destruct (grant_access_effect _ _ _ _ _ Hrun) as (He & _ & _ & _ & _ & _ & Ht).
  split; [exact He | exact Ht].
Defined.

(** X2: granting is idempotent: once a grant has succeeded, granting the
    same user again always succeeds, returns the same policy with the same
    counter, and emits no event. *)
Theorem grant_access_twice_is_once policy user s policy' s' :
  access_policy.grant_access policy user s = Ok (policy', s') ->
  forall s2, access_policy.grant_access policy' user s2 = Ok (policy', s2).
Proof.
  intros H s2. apply grant_access_present.
  apply grant_access_inv in H as [(Hin & -> & _) | (_ & _ & -> & _)].
  - exact Hin.
  - simpl. rewrite table_contains_insert, bool_decide_eq_true_2 by reflexivity.
    reflexivity.
Qed.

Lemma grant_access_twice_is_once_witness :
  exists policy' s',
    access_policy.grant_access linked_policy bob (sample_env bob) = Ok (policy', s')
    /\ access_policy.grant_access policy' bob (sample_env carol)
       = Ok (policy', sample_env carol).
Proof.
  destruct (grant_access_runs linked_policy bob (sample_env bob))
    as (p' & s' & Hrun); [right; vm_compute; discriminate|].
  exists p', s'. split; [exact Hrun|].
  exact (grant_access_twice_is_once _ _ _ _ _ Hrun (sample_env carol)).
Defined.

(** ** Batches *)

(** An index loop that borrows element [i] and runs [f] on it is [f] run
    on each element in order. *)
Lemma while_lt_borrow {E S A} (l : list A) (f : A -> S -> move.M E S) fuel :
  forall i st s,
    length l = (i + fuel)%nat ->
    while_lt fuel i (length l)
      (fun i st => bind (try (borrow l i)) (fun x => f x st)) st s
    = for_each f (drop i l) st s.
Proof.
  induction fuel as [|fuel IH]; intros i st s Hlen; simpl.
  - rewrite drop_ge by lia. reflexivity.
  - replace (i <? length l)%nat with true by (symmetry; apply Nat.ltb_lt; lia).
    destruct (lookup_lt_is_Some_2 l i) as [x Hx]; [lia|].
    rewrite (drop_S _ _ _ Hx). simpl. unfold bind at 1.
    rewrite (borrow_lookup _ _ _ Hx), bind_try_Ok. unfold bind at 2.
    destruct (f x st s) as [[st1 s1]|]; [|reflexivity].
    apply IH. lia.
Qed.

Lemma grant_access_batch_for_each policy users s :
  access_policy.grant_access_batch policy users s
  = for_each (fun user policy => access_policy.grant_access policy user)
      users policy s.
Proof.
  unfold access_policy.grant_access_batch.
  exact (while_lt_borrow users
           (fun user policy => access_policy.grant_access policy user)
           (length users) 0%nat policy s eq_refl).
Qed.

(** X3: [grant_access_batch] is [grant_access] applied to the users one
    after the other, in input order: same result, same events, and the
    same abort if one of the grants aborts. *)
Theorem grant_access_batch_is_sequence policy users s :
  access_policy.grant_access_batch policy users s
  = for_each (fun user policy => access_policy.grant_access policy user)
      users policy s.
Proof. apply grant_access_batch_for_each. Qed.

Lemma for_each_grant_members users :
  forall policy s policy' s',
    for_each (fun user policy => access_policy.grant_access policy user)
      users policy s = Ok (policy', s') ->
    (forall who,
        access_policy.has_explicit_access policy' who = true
        <-> access_policy.has_explicit_access policy who = true \/ who ∈ users)
    /\ access_policy.owner policy' = access_policy.owner policy
    /\ access_policy.id policy' = access_policy.id policy
    /\ access_policy.collection_id policy' = access_policy.collection_id policy
    /\ access_policy.total_authorized policy
       <= access_policy.total_authorized policy'.
Proof.
  induction users as [|u users IH]; intros policy s policy' s' H; simpl in H.
  - apply ret_Ok in H as [-> _]. repeat split; try reflexivity; try lia.
    + auto.
    + intros [?|Hin]; [assumption | inversion Hin].
  - apply bind_Ok in H as (p1 & s1 & Hg & H).
    apply IH in H as (Hmem & Ho & Hi & Hc & Ht).
    unfold access_policy.has_explicit_access in *.
    apply grant_access_inv in Hg as [(Hin & -> & _) | (Hin & _ & -> & _)].
    + repeat split; try assumption. 
      * intros Hw. apply Hmem in Hw as [?|?]; [auto | right; now right].
      * intros [Hw|Hw]; apply Hmem; [auto|].
        apply elem_of_cons in Hw as [->|Hw]; auto.
    + simpl in *. repeat split; try assumption; try lia.
      * intros Hw. apply Hmem in Hw as [Hw|?]; [|right; now right].
        rewrite table_contains_insert in Hw. apply orb_true_iff in Hw as [Hw|Hw].
        -- apply bool_decide_eq_true in Hw as ->. right. now left.
        -- auto.
      * intros [Hw|Hw]; apply Hmem.
        -- left. rewrite table_contains_insert, Hw. apply orb_true_r.
        -- apply elem_of_cons in Hw as [->|Hw]; [|auto].
           left. rewrite table_contains_insert, bool_decide_eq_true_2 by reflexivity.
           reflexivity.
Qed.

(** X4: after a successful [grant_access_batch], the principals with an
    entry are those that had one before together with those of the input
    list (repeated and already present users change nothing); id, owner and
    link are kept and [total_authorized] does not decrease. *)
Theorem grant_access_batch_members policy users s policy' s' :
  access_policy.grant_access_batch policy users s = Ok (policy', s') ->
  (forall who,
      access_policy.has_explicit_access policy' who = true
      <-> access_policy.has_explicit_access policy who = true \/ who ∈ users)
  /\ access_policy.owner policy' = access_policy.owner policy
  /\ access_policy.id policy' = access_policy.id policy
  /\ access_policy.collection_id policy' = access_policy.collection_id policy
  /\ access_policy.total_authorized policy
     <= access_policy.total_authorized policy'.
Proof.
  rewrite grant_access_batch_for_each. apply for_each_grant_members.
Qed.

Lemma grant_access_batch_members_witness :
  exists policy' s',
    access_policy.grant_access_batch linked_policy [bob; carol; bob]
      (sample_env alice) = Ok (policy', s')
    /\ access_policy.has_explicit_access policy' carol = true
    /\ access_policy.has_explicit_access policy' alice = false
    /\ access_policy.total_authorized policy' = 2.
Proof.
  eexists _, _. split; [vm_compute; reflexivity|].
  split; [|split; reflexivity].
  eapply (grant_access_batch_members linked_policy [bob; carol; bob]
            (sample_env alice)).
  - vm_compute. reflexivity.
  - right. set_solver.
Defined.

(** ** Revoking *)

Lemma counted_present_positive policy user :
  counted policy ->
  table_contains (access_policy.authorized_users policy) user = true ->
  1 <= access_policy.total_authorized policy.
Proof.
  unfold counted. intros Hc Hin. apply table_contains_true in Hin.
  pose proof (map_size_ne_0_lookup_2 _ _ Hin). lia.
Qed.

Lemma revoke_if_present_absent ts user policy s :
  table_contains (access_policy.authorized_users policy) user = false ->
  revoke_if_present ts user policy s = Ok (policy, s).
Proof. intros H. unfold revoke_if_present. rewrite H. reflexivity. Qed.

Lemma revoke_if_present_present ts user policy s :
  table_contains (access_policy.authorized_users policy) user = true ->
  1 <= access_policy.total_authorized policy ->
  revoke_if_present ts user policy s
  = Ok (access_policy.set_users policy
          (delete user (access_policy.authorized_users policy))
          (access_policy.total_authorized policy - 1),
        {| ctx := ctx s;
           log := log s ++ [access_policy.Emit
                              (access_policy.AccessRevoked (access_policy.id policy)
                                 user ts)] |}).
Proof.
  intros Hin Hpos. unfold revoke_if_present. rewrite Hin.
  apply table_contains_true in Hin as [v Hv]. unfold table_remove. rewrite Hv. run.
  rewrite (sub_u64_fits _ _ Hpos). run. reflexivity.
Qed.

Lemma revoke_if_present_inv ts user policy s policy' s' :
  revoke_if_present ts user policy s = Ok (policy', s') ->
  (table_contains (access_policy.authorized_users policy) user = false
   /\ policy' = policy /\ s' = s)
  \/ (table_contains (access_policy.authorized_users policy) user = true
      /\ policy' = access_policy.set_users policy
                     (delete user (access_policy.authorized_users policy))
                     (access_policy.total_authorized policy - 1)).
Proof.
  intros H. destruct (table_contains _ _) eqn:Hin.
  - right. unfold revoke_if_present in H. rewrite Hin in H. inv_run H.
    apply ret_Ok in H as [-> _]. apply sub_u64_Ok in Hm0 as [-> _].
    apply table_contains_true in Hin as [v Hv]. unfold table_remove in Hm.
    rewrite Hv in Hm. injection Hm as <-. auto.
  - rewrite revoke_if_present_absent in H by exact Hin. injection H as <- <-. auto.
Qed.

Lemma revoke_access_batch_for_each policy users s :
  access_policy.revoke_access_batch policy users s
  = if bool_decide (access_policy.owner policy = sender (ctx s))
    then for_each (revoke_if_present (epoch_timestamp_ms (ctx s))) users policy s
    else Err (Abort m_access_policy access_policy.ENotOwner).
Proof.
  unfold access_policy.revoke_access_batch. rewrite bind_get_ctx.
  destruct (bool_decide _); [|reflexivity]. rewrite bind_assert_true.
  exact (while_lt_borrow users (revoke_if_present (epoch_timestamp_ms (ctx s)))
           (length users) 0%nat policy s eq_refl).
Qed.

Lemma for_each_revoke_members ts users :
  forall policy s policy' s',
    for_each (revoke_if_present ts) users policy s = Ok (policy', s') ->
    (forall who,
        access_policy.has_explicit_access policy' who = true
        <-> access_policy.has_explicit_access policy who = true /\ who ∉ users)
    /\ access_policy.owner policy' = access_policy.owner policy
    /\ access_policy.id policy' = access_policy.id policy
    /\ access_policy.collection_id policy' = access_policy.collection_id policy.
Proof.
  induction users as [|u users IH]; intros policy s policy' s' H; simpl in H.
  - apply ret_Ok in H as [-> _]. split; [|auto].
    intros who. split; [intros Hw; split; [exact Hw | apply not_elem_of_nil] | tauto].
  - apply bind_Ok in H as (p1 & s1 & Hr & H).
    apply IH in H as (Hmem & Ho & Hi & Hc).
    unfold access_policy.has_explicit_access in *.
    apply revoke_if_present_inv in Hr as [(Hin & -> & _) | (Hin & ->)].
    + split; [|auto]. intros who. rewrite Hmem. split.
      * intros [Hw Hn]. split; [exact Hw|]. intros Hu.
        apply elem_of_cons in Hu as [->|Hu]; [congruence | contradiction].
      * intros [Hw Hn]. apply not_elem_of_cons in Hn as [_ Hn]. auto.
    + simpl in *. split; [|auto]. intros who. rewrite Hmem.
      rewrite table_contains_delete, andb_true_iff, negb_true_iff,
        bool_decide_eq_false.
      split.
      * intros [[Hne Hw] Hn]. split; [exact Hw|]. intros Hu.
        apply elem_of_cons in Hu as [->|Hu]; [congruence | contradiction].
      * intros [Hw Hn]. apply not_elem_of_cons in Hn as [Hne Hn]. auto.
Qed.

Lemma for_each_revoke_runs ts users :
  forall policy s,
    counted policy ->
    exists policy' s', for_each (revoke_if_present ts) users policy s = Ok (policy', s').
Proof.
  induction users as [|u users IH]; intros policy s Hc; simpl.
  - eexists _, _. reflexivity.
  - unfold bind. destruct (table_contains (access_policy.authorized_users policy) u) eqn:Hin.
    + pose proof (counted_present_positive _ _ Hc Hin) as Hpos.
      rewrite (revoke_if_present_present _ _ _ _ Hin Hpos). apply IH.
      eapply revoke_step_counted; [exact Hc | exact Hin | |].
      * apply table_contains_true in Hin as [v Hv]. unfold table_remove.
        rewrite Hv. reflexivity.
      * apply sub_u64_fits. exact Hpos.
    + rewrite (revoke_if_present_absent _ _ _ _ Hin). apply IH. exact Hc.
Qed.

(** X5: [revoke_access_batch] is owner-gated even for an empty list; when
    it succeeds the caller is the owner, and the principals left with an
    entry are those that had one and are not in the input list; id, owner
    and link are kept. *)
Theorem revoke_access_batch_members policy users s policy' s' :
  access_policy.revoke_access_batch policy users s = Ok (policy', s') ->
  access_policy.owner policy = sender (ctx s)
  /\ (forall who,
        access_policy.has_explicit_access policy' who = true
        <-> access_policy.has_explicit_access policy who = true /\ who ∉ users)
  /\ access_policy.owner policy' = access_policy.owner policy
  /\ access_policy.id policy' = access_policy.id policy
  /\ access_policy.collection_id policy' = access_policy.collection_id policy.
Proof.
  rewrite revoke_access_batch_for_each. case_bool_decide as Ho; [|discriminate].
  intros H. split; [exact Ho|]. eapply for_each_revoke_members. exact H.
Qed.

Lemma revoke_access_batch_members_witness :
  exists policy' s',
    access_policy.revoke_access_batch owner_listed_policy [bob; alice]
      (sample_env alice) = Ok (policy', s')
    /\ access_policy.has_explicit_access policy' alice = false
    /\ access_policy.total_authorized policy' = 0.
Proof.
  eexists _, _. split; [vm_compute; reflexivity|]. split; [|reflexivity].
  destruct (access_policy.has_explicit_access _ alice) eqn:Hx; [|reflexivity].
  eapply (revoke_access_batch_members owner_listed_policy [bob; alice]
            (sample_env alice)) in Hx as [_ Hx]; [|vm_compute; reflexivity].
  exfalso. apply Hx. set_solver.
Defined.

(** X6: on a policy whose counter agrees with its table (every policy on
    chain, by C4), [revoke_access_batch] called by the owner never aborts,
    whatever the list: absent users are skipped and the counter cannot
    underflow.  Any other caller gets [ENotOwner]. *)
Theorem revoke_access_batch_owner_never_aborts policy users s :
  counted policy ->
  (access_policy.owner policy = sender (ctx s) ->
   exists policy' s',
     access_policy.revoke_access_batch policy users s = Ok (policy', s')
     /\ counted policy')
  /\ (access_policy.owner policy <> sender (ctx s) ->
      access_policy.revoke_access_batch policy users s
      = Err (Abort m_access_policy access_policy.ENotOwner)).
Proof.
  intros Hc. split; intros Ho.
  - destruct (for_each_revoke_runs (epoch_timestamp_ms (ctx s)) users policy s Hc)
      as (p' & s' & Hrun).
    assert (Hb : access_policy.revoke_access_batch policy users s = Ok (p', s')).
    { rewrite revoke_access_batch_for_each, bool_decide_eq_true_2 by exact Ho.
      exact Hrun. }
    exists p', s'. split; [exact Hb|].
    eapply revoke_access_batch_counted; eauto.
  - rewrite revoke_access_batch_for_each, bool_decide_eq_false_2 by exact Ho.
    reflexivity.
Qed.

Lemma revoke_access_batch_owner_never_aborts_witness :
  (exists policy' s',
      access_policy.revoke_access_batch owner_listed_policy [carol; alice; carol]
        (sample_env alice) = Ok (policy', s')
      /\ counted policy')
  /\ access_policy.revoke_access_batch owner_listed_policy [] (sample_env bob)
     = Err (Abort m_access_policy access_policy.ENotOwner).
Proof.
  destruct (revoke_access_batch_owner_never_aborts owner_listed_policy
              [carol; alice; carol] (sample_env alice)) as [H _];
    [reflexivity|].
  split; [apply H; reflexivity | reflexivity].
Defined.

(** X7: [revoke_access] tells its two errors apart and differs from the
    batch on an absent user: a caller other than the owner gets
    [ENotOwner]; the owner revoking a user without an entry gets
    [ENoAccess], while [revoke_access_batch] on the same user succeeds and
    returns the policy and the log unchanged; on a policy whose counter
    agrees with its table the owner revoking a user with an entry always
    succeeds. *)
Theorem revoke_access_outcomes policy user s :
  (access_policy.owner policy <> sender (ctx s) ->
   access_policy.revoke_access policy user s
   = Err (Abort m_access_policy access_policy.ENotOwner))
  /\ (access_policy.owner policy = sender (ctx s) ->
      access_policy.has_explicit_access policy user = false ->
      access_policy.revoke_access policy user s
      = Err (Abort m_access_policy access_policy.ENoAccess)
      /\ access_policy.revoke_access_batch policy [user] s = Ok (policy, s))
  /\ (access_policy.owner policy = sender (ctx s) ->
      access_policy.has_explicit_access policy user = true ->
      counted policy ->
      exists policy' s', access_policy.revoke_access policy user s = Ok (policy', s')).
Proof.
  unfold access_policy.has_explicit_access. repeat split.
  - intros Ho. unfold access_policy.revoke_access. run.
    rewrite bool_decide_eq_false_2 by exact Ho. reflexivity.
  - unfold access_policy.revoke_access. run.
    rewrite bool_decide_eq_true_2 by assumption. run.
    rewrite H0. reflexivity.
  - rewrite revoke_access_batch_for_each, bool_decide_eq_true_2 by assumption.
    simpl. unfold bind. rewrite revoke_if_present_absent by assumption. reflexivity.
  - intros Ho Hin Hc. unfold access_policy.revoke_access. run.
    rewrite bool_decide_eq_true_2 by assumption. run. rewrite Hin. run.
    pose proof (counted_present_positive _ _ Hc Hin) as Hpos.
    apply table_contains_true in Hin as [v Hv]. unfold table_remove. rewrite Hv.
    run. rewrite (sub_u64_fits _ _ Hpos). run. eexists _, _. reflexivity.
Qed.

Lemma revoke_access_outcomes_witness :
  access_policy.revoke_access linked_policy bob (sample_env alice)
  = Err (Abort m_access_policy access_policy.ENoAccess)
  /\ access_policy.revoke_access_batch linked_policy [bob] (sample_env alice)
     = Ok (linked_policy, sample_env alice).
Proof.
  destruct (revoke_access_outcomes linked_policy bob (sample_env alice))
    as (_ & H & _).
  apply H; reflexivity.
Defined.

(** X8: granting a user without an entry and then revoking that user, as
    owner, gives back the policy as it was: same table, same counter. *)
Theorem grant_then_revoke_restores policy user s1 policy1 s1' s2 policy2 s2' :
  access_policy.has_explicit_access policy user = false ->
  access_policy.grant_access policy user s1 = Ok (policy1, s1') ->
  access_policy.revoke_access policy1 user s2 = Ok (policy2, s2') ->
  policy2 = policy.
Proof.
  unfold access_policy.has_explicit_access. intros Hin Hg Hr.
  apply grant_access_inv in Hg as [(Hin' & _) | (_ & _ & -> & _)]; [congruence|].
  unfold access_policy.revoke_access in Hr. inv_run Hr.
  apply ret_Ok in Hr as [-> _]. apply sub_u64_Ok in Hm2 as [-> _].
  unfold table_remove in Hm1. simpl in Hm1. rewrite lookup_insert_eq in Hm1.
  injection Hm1 as <-. apply table_contains_false in Hin.
  destruct policy as [pid cid o users total]. unfold access_policy.set_users.
  simpl in *. f_equal; [apply delete_insert_id; exact Hin | lia].
Qed.

Lemma grant_then_revoke_restores_witness :
  exists policy1 s1 policy2 s2,
    access_policy.grant_access linked_policy bob (sample_env bob) = Ok (policy1, s1)
    /\ access_policy.revoke_access policy1 bob (sample_env alice) = Ok (policy2, s2)
    /\ policy2 = linked_policy.
Proof.
  eexists _, _, _, _. split; [vm_compute; reflexivity|].
  split; [vm_compute; reflexivity|].
  eapply (grant_then_revoke_restores linked_policy bob (sample_env bob) _ _
            (sample_env alice)).
  - reflexivity.
  - vm_compute. reflexivity.
  - vm_compute. reflexivity.
Defined.

(** ** Ownership of a policy *)

Lemma transfer_ownership_run policy new_owner s :
  access_policy.transfer_ownership policy new_owner s
  = if bool_decide (access_policy.owner policy = sender (ctx s))
    then Ok (access_policy.set_owner policy new_owner,
             {| ctx := ctx s;
                log := log s ++ [access_policy.Emit
                                   (access_policy.PolicyOwnershipTransferred
                                      (access_policy.id policy)
                                      (access_policy.owner policy) new_owner
                                      (epoch_timestamp_ms (ctx s)))] |})
    else Err (Abort m_access_policy access_policy.ENotOwner).
Proof.
  unfold access_policy.transfer_ownership. run.
  destruct (bool_decide _); [run|]; reflexivity.
Qed.

(** X9: [transfer_ownership] is open to the current owner only
    ([ENotOwner] otherwise).  It replaces the owner and nothing else; from
    then on the new owner can decrypt, the old one can decrypt only through
    an entry of their own, and every owner-gated call made by the old owner
    (revoke, batch revoke, another transfer) aborts with [ENotOwner]. *)
Theorem transfer_ownership_hands_over policy new_owner s :
  (access_policy.owner policy <> sender (ctx s) ->
   access_policy.transfer_ownership policy new_owner s
   = Err (Abort m_access_policy access_policy.ENotOwner))
  /\ (access_policy.owner policy = sender (ctx s) ->
      exists policy' s',
        access_policy.transfer_ownership policy new_owner s = Ok (policy', s')
        /\ access_policy.owner policy' = new_owner
        /\ access_policy.id policy' = access_policy.id policy
        /\ access_policy.collection_id policy' = access_policy.collection_id policy
        /\ access_policy.authorized_users policy'
           = access_policy.authorized_users policy
        /\ access_policy.total_authorized policy'
           = access_policy.total_authorized policy
        /\ (forall who,
              access_policy.can_decrypt policy' who = true
              <-> who = new_owner
                  \/ access_policy.has_explicit_access policy who = true)
        /\ (access_policy.owner policy <> new_owner ->
            forall s2 user users back,
              sender (ctx s2) = access_policy.owner policy ->
              access_policy.revoke_access policy' user s2
              = Err (Abort m_access_policy access_policy.ENotOwner)
              /\ access_policy.revoke_access_batch policy' users s2
                 = Err (Abort m_access_policy access_policy.ENotOwner)
              /\ access_policy.transfer_ownership policy' back s2
                 = Err (Abort m_access_policy access_policy.ENotOwner))).
Proof.
  split; intros Ho; rewrite transfer_ownership_run.
  - rewrite bool_decide_eq_false_2 by exact Ho. reflexivity.
  - rewrite bool_decide_eq_true_2 by exact Ho. eexists _, _.
    split; [reflexivity|]. simpl. repeat (split; [reflexivity|]). split.
    + intros who. rewrite can_decrypt_spec. simpl.
      unfold access_policy.has_explicit_access. rewrite table_contains_true.
      reflexivity.
    + intros Hne s2 user users back Hs2.
      assert (Hgate : bool_decide
                        (access_policy.owner (access_policy.set_owner policy new_owner)
                         = sender (ctx s2)) = false).
      { apply bool_decide_eq_false_2. simpl. congruence. }
      split; [|split].
      * unfold access_policy.revoke_access. run. rewrite Hgate. reflexivity.
      * rewrite revoke_access_batch_for_each, Hgate. reflexivity.
      * rewrite transfer_ownership_run, Hgate. reflexivity.
Qed.

Lemma transfer_ownership_hands_over_witness :
  exists policy' s',
    access_policy.transfer_ownership linked_policy bob (sample_env alice)
    = Ok (policy', s')
    /\ access_policy.owner policy' = bob
    /\ access_policy.can_decrypt policy' alice = false
    /\ access_policy.transfer_ownership policy' alice (sample_env alice)
       = Err (Abort m_access_policy access_policy.ENotOwner).
Proof.
  destruct (transfer_ownership_hands_over linked_policy bob (sample_env alice))
    as [_ H].
  destruct (H eq_refl) as (p' & s' & Hrun & Ho & _ & _ & _ & _ & Hdec & Hlock).
  exists p', s'. split; [exact Hrun|]. split; [exact Ho|]. split.
  - destruct (access_policy.can_decrypt p' alice) eqn:Hd; [|reflexivity].
    apply Hdec in Hd as [Hd|Hd]; discriminate.
  - apply (Hlock ltac:(discriminate) (sample_env alice) alice [] alice eq_refl).
Defined.

(** ** The key-server entry points *)

(** X10: [is_prefix] never aborts and answers true exactly when [data]
    is [prefix] followed by something; so the empty prefix matches every
    vector and a prefix longer than the data matches none. *)
Theorem is_prefix_exact (prefix data : list u8) :
  (exists b, access_policy.is_prefix prefix data = Ok b)
  /\ (access_policy.is_prefix prefix data = Ok true
      <-> exists rest, data = prefix ++ rest)
  /\ access_policy.is_prefix [] data = Ok true
  /\ ((length data < length prefix)%nat ->
      access_policy.is_prefix prefix data = Ok false).
Proof.
  rewrite !is_prefix_spec. split; [eauto|]. split; [|split].
  - split.
    + intros [= H]. apply bool_decide_eq_true in H. exact H.
    + intros H. rewrite bool_decide_eq_true_2 by exact H. reflexivity.
  - rewrite bool_decide_eq_true_2 by apply prefix_nil. reflexivity.
  - intros Hlen. rewrite bool_decide_eq_false_2; [reflexivity|]. intros Hp.
    apply prefix_length in Hp. lia.
Qed.

(** X11: a request id accepted by one policy is rejected by every other
    policy whose id has the same length (object ids all have length 32):
    the id prefix binds a decryption request to one policy, whoever asks. *)
Theorem seal_approve_bound_to_one_policy (request : list u8)
    (p q : access_policy.CollectionAccessPolicy) (c c' : TxContext) :
  length (access_policy.id p) = length (access_policy.id q) ->
  access_policy.id p <> access_policy.id q ->
  access_policy.seal_approve request p c = Ok tt ->
  access_policy.seal_approve request q c'
  = Err (Abort m_access_policy access_policy.ENotAuthorized).
Proof.
  intros Hlen Hne Hp. unfold access_policy.seal_approve in *.
  rewrite is_prefix_spec in *.
  case_bool_decide as Hpp; [|discriminate].
  rewrite bool_decide_eq_false_2; [reflexivity|].
  intros Hq. destruct Hpp as [r1 ->]. destruct Hq as [r2 Hq].
  apply app_inj_1 in Hq as [Hq _]; [congruence | exact Hlen].
Qed.

Lemma seal_approve_bound_to_one_policy_witness :
  access_policy.seal_approve [9; 42] linked_policy (sample_ctx alice) = Ok tt
  /\ access_policy.seal_approve [9; 42] other_policy (sample_ctx bob)
     = Err (Abort m_access_policy access_policy.ENotAuthorized).
Proof.
  assert (H : access_policy.seal_approve [9; 42] linked_policy (sample_ctx alice)
              = Ok tt) by reflexivity.
  split; [exact H|].
  exact (seal_approve_bound_to_one_policy [9; 42] linked_policy other_policy
           (sample_ctx alice) (sample_ctx bob) eq_refl ltac:(discriminate) H).
Defined.

(** X12: on a request id that starts with the policy's id bytes,
    [seal_approve] gives the result of [verify_decrypt_access], success or
    abort; and whatever [seal_approve] accepts, [verify_decrypt_access]
    accepts. *)
Theorem seal_approve_is_verify_on_own_namespace
    (policy : access_policy.CollectionAccessPolicy) (c : TxContext) :
  (forall nonce,
      access_policy.seal_approve (access_policy.id policy ++ nonce) policy c
      = access_policy.verify_decrypt_access policy c)
  /\ (forall request,
         access_policy.seal_approve request policy c = Ok tt ->
         access_policy.verify_decrypt_access policy c = Ok tt).
Proof.
  unfold access_policy.seal_approve, access_policy.verify_decrypt_access. split.
  - intros nonce. rewrite is_prefix_spec.
    rewrite bool_decide_eq_true_2 by (exists nonce; reflexivity). reflexivity.
  - intros request. rewrite is_prefix_spec.
    destruct (bool_decide _); [|discriminate].
    destruct (access_policy.can_decrypt policy (sender c)); [reflexivity | discriminate].
Qed.

(** ** Reading access off a collection *)

(** X13: [has_access] is true exactly when the collection is not deleted
    and the user is the owner or the visibility is public or unlisted.  A
    deleted collection is closed to its owner too; private, pay-to-see and
    any other visibility value are owner-only; the time argument is not
    read. *)
Theorem has_access_iff (c : collection.Collection) (user : address) (now : u64) :
  (collection.has_access c user now = true
   <-> collection.is_deleted c = false
       /\ (collection.owner c = user
           \/ collection.visibility c = collection.VISIBILITY_PUBLIC
           \/ collection.visibility c = collection.VISIBILITY_UNLISTED))
  /\ (forall later, collection.has_access c user later
                    = collection.has_access c user now).
Proof.
  split; [|reflexivity]. unfold collection.has_access.
  destruct (collection.is_deleted c).
  - split; [discriminate | intros [? _]; discriminate].
  - case_bool_decide as Ho.
    + split; auto.
    + destruct (N.eqb_spec (collection.visibility c) collection.VISIBILITY_PUBLIC)
        as [Hp|Hp]; simpl.
      * split; auto.
      * destruct (N.eqb_spec (collection.visibility c) collection.VISIBILITY_UNLISTED)
          as [Hu|Hu].
        -- split; auto.
        -- assert (Hno : ~ (false = false
                            /\ (collection.owner c = user
                                \/ collection.visibility c = collection.VISIBILITY_PUBLIC
                                \/ collection.visibility c
                                   = collection.VISIBILITY_UNLISTED))) by tauto.
           destruct (_ =? collection.VISIBILITY_PRIVATE);
             (split; [discriminate | intros H; destruct (Hno H)]).
Qed.

(** ** What a purchase hands out *)

Lemma token_transfers_app l1 l2 :
  token_transfers (l1 ++ l2) = token_transfers l1 ++ token_transfers l2.
Proof. apply omap_app. Qed.

Lemma token_transfers_policy l : token_transfers (map collection.Policy l) = [].
Proof. induction l as [|e l IH]; [reflexivity | exact IH]. Qed.

Lemma refund_step_tokens (rest : collection.Coin) (who : address)
    (s s1 : env collection.effect) u :
  (if 0 <? collection.coin_value rest
   then emit (collection.TransferCoin rest who)
   else collection.coin_destroy_zero rest) s = Ok (u, s1) ->
  ctx s1 = ctx s /\ token_transfers (log s1) = token_transfers (log s).
Proof.
  destruct (0 <? collection.coin_value rest); intros H.
  - apply emit_Ok in H as ->. simpl. rewrite token_transfers_app. simpl.
    rewrite app_nil_r. auto.
  - apply coin_destroy_zero_Ok in H as [_ ->]. auto.
Qed.

Lemma grant_access_ctx policy user s policy' s' :
  access_policy.grant_access policy user s = Ok (policy', s') -> ctx s' = ctx s.
Proof.
  intros H. apply grant_access_inv in H as [(_ & _ & ->) | (_ & _ & _ & ->)];
    reflexivity.
Qed.

Lemma purchase_access_tokens derive_id c cfg pay s c' s' :
  collection.purchase_access derive_id c cfg pay s = Ok (c', s') ->
  token_transfers (log s')
  = token_transfers (log s)
    ++ [({| collection.token_id :=
              derive_id (tx_hash (ctx s)) (ids_created (ctx s) + 1 + 1);
            collection.token_collection_id := collection.id c;
            collection.token_owner := sender (ctx s);
            collection.token_purchased_at := epoch_timestamp_ms (ctx s) |},
         sender (ctx s))].
Proof.
  intros H. unfold collection.purchase_access in H. inv_run H.
  inv_split H. inv_run H. inv_split H. inv_run H. norm_env.
  match goal with
  | Hr : (if _ then emit (collection.TransferCoin ?r ?w) else _) ?s0 = Ok _ |- _ =>
      apply (refund_step_tokens r w s0) in Hr as [Hctx Htok]; norm_env
  end.
  apply ret_Ok in H as [-> ->]. norm_env.
  rewrite !token_transfers_app, Htok, Hctx, !token_transfers_app. simpl.
  rewrite !app_nil_r. reflexivity.
Qed.

Lemma purchase_access_encrypted_inv derive_id c policy cfg pay s c' policy' s' :
  collection.purchase_access_encrypted derive_id c policy cfg pay s
  = Ok ((c', policy'), s') ->
  (exists sp sp',
      access_policy.grant_access policy (sender (ctx s)) sp = Ok (policy', sp'))
  /\ token_transfers (log s')
     = token_transfers (log s)
       ++ [({| collection.token_id :=
                 derive_id (tx_hash (ctx s)) (ids_created (ctx s) + 1 + 1);
               collection.token_collection_id := collection.id c;
               collection.token_owner := sender (ctx s);
               collection.token_purchased_at := epoch_timestamp_ms (ctx s) |},
            sender (ctx s))].
Proof.
  intros H. unfold collection.purchase_access_encrypted in H. inv_run H.
  inv_split H. inv_run H. inv_split H. inv_run H. norm_env.
  match goal with
  | Hr : (if _ then emit (collection.TransferCoin ?r ?w) else _) ?s0 = Ok _ |- _ =>
      apply (refund_step_tokens r w s0) in Hr as [Hctx Htok]; norm_env
  end.
  match goal with
  | Hg : call _ _ _ = Ok _ |- _ => apply call_Ok in Hg as (sp & Hgrant & ->)
  end.
  apply ret_Ok in H as [[= -> ->] ->]. norm_env.
  split; [eauto|].
  apply grant_access_ctx in Hgrant. norm_env.
  rewrite !token_transfers_app, token_transfers_policy, Htok, Hgrant, Hctx,
    !token_transfers_app.
  simpl. rewrite !app_nil_r. reflexivity.
Qed.

(** X14: a successful purchase, through either entry point, hands out
    exactly one [AccessToken]: it goes to the caller, names this collection
    and the caller as owner, and is stamped with the transaction's
    timestamp.  A tip hands out none. *)
Theorem purchase_mints_one_token derive_id (c : collection.Collection)
    (policy : access_policy.CollectionAccessPolicy)
    (cfg : collection.PlatformConfig) (pay : collection.Coin)
    (s : env collection.effect) :
  let minted (s' : env collection.effect) :=
    exists token,
      token_transfers (log s') = token_transfers (log s) ++ [(token, sender (ctx s))]
      /\ collection.token_collection_id token = collection.id c
      /\ collection.token_owner token = sender (ctx s)
      /\ collection.token_purchased_at token = epoch_timestamp_ms (ctx s) in
  (forall c' s',
      collection.purchase_access derive_id c cfg pay s = Ok (c', s') -> minted s')
  /\ (forall r s',
         collection.purchase_access_encrypted derive_id c policy cfg pay s
         = Ok (r, s') -> minted s')
  /\ (forall c' s',
         collection.tip_creator derive_id c cfg pay s = Ok (c', s') ->
         token_transfers (log s') = token_transfers (log s)).
Proof.
  cbn zeta. split; [|split].
  - intros c' s' H. apply purchase_access_tokens in H.
    eexists. split; [exact H|]. repeat split.
  - intros [c' p'] s' H. apply purchase_access_encrypted_inv in H as [_ H].
    eexists. split; [exact H|]. repeat split.
  - intros c' s' H. unfold collection.tip_creator in H. inv_run H.
    inv_split H. inv_run H. inv_split H. inv_run H. norm_env.
    apply ret_Ok in H as [-> ->]. norm_env.
    rewrite !token_transfers_app. simpl. rewrite !app_nil_r. reflexivity.
Qed.

(** X15: a successful [purchase_access_encrypted] grants the caller in the
    policy it was given: the caller has an entry and passes the policy's
    [can_decrypt]; no other entry changes, id, owner and link of the policy
    are kept, and the counter still agrees with the table if it did.  The
    policy is not compared with the collection's [access_policy_id]. *)
Theorem purchase_access_encrypted_grants_buyer derive_id c policy cfg pay s
    c' policy' s' :
  collection.purchase_access_encrypted derive_id c policy cfg pay s
  = Ok ((c', policy'), s') ->
  access_policy.has_explicit_access policy' (sender (ctx s)) = true
  /\ access_policy.can_decrypt policy' (sender (ctx s)) = true
  /\ (forall other, other <> sender (ctx s) ->
        access_policy.has_explicit_access policy' other
        = access_policy.has_explicit_access policy other)
  /\ access_policy.id policy' = access_policy.id policy
  /\ access_policy.owner policy' = access_policy.owner policy
  /\ access_policy.collection_id policy' = access_policy.collection_id policy
  /\ (counted policy -> counted policy').
Proof.
  intros H. apply purchase_access_encrypted_inv in H as [(sp & sp' & Hg) _].
  unfold access_policy.has_explicit_access, access_policy.can_decrypt.
  assert (Hcount : counted policy -> counted policy').
  { intros Hc'. eapply grant_access_counted; eauto. }
  apply grant_access_inv in Hg as [(Hin & -> & _) | (Hin & _ & -> & _)]; simpl.
  - rewrite Hin. repeat split; try reflexivity; try assumption.
    destruct (bool_decide _); reflexivity.
  - rewrite table_contains_insert, bool_decide_eq_true_2 by reflexivity. simpl.
    repeat split; try reflexivity; try assumption.
    + destruct (bool_decide _); reflexivity.
    + intros other Hne. rewrite table_contains_insert.
      rewrite bool_decide_eq_false_2 by congruence. reflexivity.
Qed.

Lemma purchase_access_encrypted_grants_buyer_witness :
  exists c' policy' s',
    collection.purchase_access_encrypted sample_derive_id encrypted_collection
      other_policy sample_config (sample_coin 1000) (sample_env bob)
    = Ok ((c', policy'), s')
    /\ collection.access_policy_id encrypted_collection
       <> Some (access_policy.id other_policy)
    /\ access_policy.can_decrypt policy' bob = true.
Proof.
  eexists _, _, _. split; [vm_compute; reflexivity|].
  split; [discriminate|].
  eapply (purchase_access_encrypted_grants_buyer sample_derive_id
            encrypted_collection other_policy sample_config (sample_coin 1000)
            (sample_env bob)).
  vm_compute. reflexivity.
Defined.

(** X16: a buyer who is not the owner passes the policy's [can_decrypt]
    after a successful [purchase_access_encrypted], yet the collection's
    own [can_decrypt] answers false for that buyer at any time: it also
    asks [has_access], which is owner-only on a pay-to-see collection. *)
Theorem buyer_fails_collection_can_decrypt derive_id c policy cfg pay s
    c' policy' s' :
  collection.purchase_access_encrypted derive_id c policy cfg pay s
  = Ok ((c', policy'), s') ->
  sender (ctx s) <> collection.owner c ->
  access_policy.can_decrypt policy' (sender (ctx s)) = true
  /\ forall now,
       collection.has_access c' (sender (ctx s)) now = false
       /\ collection.can_decrypt c' policy' (sender (ctx s)) now = false.
Proof.
  intros H Hne.
  pose proof (purchase_access_encrypted_inv _ _ _ _ _ _ _ _ _ H)
    as [(sp & sp' & Hg) _].
  apply purchase_access_encrypted_Ok in H as (Hd & Hv & He & _ & _ & _ & ->).
  split.
  - unfold access_policy.can_decrypt.
    apply grant_access_inv in Hg as [(Hin & -> & _) | (_ & _ & -> & _)]; simpl.
    + rewrite Hin. destruct (bool_decide _); reflexivity.
    + destruct (bool_decide _); [reflexivity|].
      rewrite table_contains_insert, bool_decide_eq_true_2 by reflexivity.
      reflexivity.
  - intros now.
    assert (Ha : collection.has_access
                   (collection.set_purchase_stats c
                      (collection.total_earnings c + collection.price c)
                      (collection.purchase_count c + 1))
                   (sender (ctx s)) now = false).
    { unfold collection.has_access. simpl. rewrite Hd, Hv.
      rewrite bool_decide_eq_false_2 by congruence. reflexivity. }
    split; [exact Ha|]. unfold collection.can_decrypt. simpl. rewrite He, Ha.
    reflexivity.
Qed.

Lemma buyer_fails_collection_can_decrypt_witness :
  exists c' policy' s',
    collection.purchase_access_encrypted sample_derive_id encrypted_collection
      linked_policy sample_config (sample_coin 1000) (sample_env bob)
    = Ok ((c', policy'), s')
    /\ access_policy.can_decrypt policy' bob = true
    /\ collection.can_decrypt c' policy' bob 2000 = false.
Proof.
  eexists _, _, _. split; [vm_compute; reflexivity|].
  edestruct (buyer_fails_collection_can_decrypt sample_derive_id
               encrypted_collection linked_policy sample_config
               (sample_coin 1000) (sample_env bob)) as [Hp Hc].
  - vm_compute. reflexivity.
  - discriminate.
  - split; [exact Hp | exact (proj2 (Hc 2000))].
Defined.

(** ** The guards of a purchase *)

Lemma purchase_access_guards derive_id c cfg pay s :
  collection.is_deleted c = false ->
  (collection.visibility c <> collection.VISIBILITY_PAY_TO_SEE
   \/ collection.is_encrypted c = true ->
   collection.purchase_access derive_id c cfg pay s
   = Err (Abort m_collection collection.EInvalidPrice))
  /\ (collection.visibility c = collection.VISIBILITY_PAY_TO_SEE ->
      collection.is_encrypted c = false ->
      collection.coin_value pay < collection.price c ->
      collection.purchase_access derive_id c cfg pay s
      = Err (Abort m_collection collection.EInsufficientPayment)).
Proof.
  intros Hd. unfold collection.purchase_access. rewrite Hd. cbn [negb]. run. split.
  - intros [Hv|He].
    + apply N.eqb_neq in Hv. rewrite Hv. reflexivity.
    + destruct (_ =? _); [|reflexivity]. run. rewrite He. reflexivity.
  - intros Hv He Hp. rewrite Hv, He, N.eqb_refl. cbn [negb]. run.
    apply N.leb_gt in Hp. rewrite Hp. reflexivity.
Qed.

Lemma purchase_access_encrypted_guards derive_id c policy cfg pay s :
  collection.is_deleted c = false ->
  (collection.visibility c <> collection.VISIBILITY_PAY_TO_SEE
   \/ collection.is_encrypted c = false ->
   collection.purchase_access_encrypted derive_id c policy cfg pay s
   = Err (Abort m_collection collection.EInvalidPrice))
  /\ (collection.visibility c = collection.VISIBILITY_PAY_TO_SEE ->
      collection.is_encrypted c = true ->
      collection.coin_value pay < collection.price c ->
      collection.purchase_access_encrypted derive_id c policy cfg pay s
      = Err (Abort m_collection collection.EInsufficientPayment)).
Proof.
  intros Hd. unfold collection.purchase_access_encrypted. rewrite Hd. cbn [negb].
  run. split.
  - intros [Hv|He].
    + apply N.eqb_neq in Hv. rewrite Hv. reflexivity.
    + destruct (_ =? _); [|reflexivity]. run. rewrite He. reflexivity.
  - intros Hv He Hp. rewrite Hv, He, N.eqb_refl. run.
    apply N.leb_gt in Hp. rewrite Hp. reflexivity.
Qed.

(** X17: on a collection that is not deleted, both purchase entry points
    abort with [EInvalidPrice] when the visibility is not pay-to-see or the
    collection's encryption mode is the other entry point's, and, past
    those guards, with [EInsufficientPayment] when the payment is below the
    price; nothing has been transferred at that point. *)
Theorem purchase_guard_errors derive_id (c : collection.Collection)
    (policy : access_policy.CollectionAccessPolicy)
    (cfg : collection.PlatformConfig) (pay : collection.Coin)
    (s : env collection.effect) :
  collection.is_deleted c = false ->
  (collection.visibility c <> collection.VISIBILITY_PAY_TO_SEE ->
   collection.purchase_access derive_id c cfg pay s
   = Err (Abort m_collection collection.EInvalidPrice)
   /\ collection.purchase_access_encrypted derive_id c policy cfg pay s
      = Err (Abort m_collection collection.EInvalidPrice))
  /\ (collection.is_encrypted c = true ->
      collection.purchase_access derive_id c cfg pay s
      = Err (Abort m_collection collection.EInvalidPrice))
  /\ (collection.is_encrypted c = false ->
      collection.purchase_access_encrypted derive_id c policy cfg pay s
      = Err (Abort m_collection collection.EInvalidPrice))
  /\ (collection.visibility c = collection.VISIBILITY_PAY_TO_SEE ->
      collection.coin_value pay < collection.price c ->
      if collection.is_encrypted c
      then collection.purchase_access_encrypted derive_id c policy cfg pay s
           = Err (Abort m_collection collection.EInsufficientPayment)
      else collection.purchase_access derive_id c cfg pay s
           = Err (Abort m_collection collection.EInsufficientPayment)).
Proof.
  intros Hd.
  destruct (purchase_access_guards derive_id c cfg pay s Hd) as [Hg1 Hg2].
  destruct (purchase_access_encrypted_guards derive_id c policy cfg pay s Hd)
    as [He1 He2].
  repeat split; auto.
  intros Hv Hp. destruct (collection.is_encrypted c) eqn:He; auto.
Qed.

Lemma purchase_guard_errors_witness :
  collection.purchase_access sample_derive_id sample_collection sample_config
    (sample_coin 999) (sample_env bob)
  = Err (Abort m_collection collection.EInsufficientPayment)
  /\ collection.purchase_access_encrypted sample_derive_id sample_collection
       linked_policy sample_config (sample_coin 1000) (sample_env bob)
     = Err (Abort m_collection collection.EInvalidPrice).
Proof.
  destruct (purchase_guard_errors sample_derive_id sample_collection
              linked_policy sample_config (sample_coin 999) (sample_env bob)
              eq_refl) as (_ & _ & _ & Hpay).
  destruct (purchase_guard_errors sample_derive_id sample_collection
              linked_policy sample_config (sample_coin 1000) (sample_env bob)
              eq_refl) as (_ & _ & Henc & _).
  split; [exact (Hpay eq_refl eq_refl) | exact (Henc eq_refl)].
Defined.

(** X18: the two purchase entry points exclude each other: if one of them
    succeeds on a collection, the other aborts with [EInvalidPrice] on it,
    whatever policy, fee configuration, payment and caller it is given. *)
Theorem purchase_entry_points_exclusive derive_id (c : collection.Collection) :
  (forall cfg pay s c' s',
      collection.purchase_access derive_id c cfg pay s = Ok (c', s') ->
      forall policy cfg2 pay2 s2,
        collection.purchase_access_encrypted derive_id c policy cfg2 pay2 s2
        = Err (Abort m_collection collection.EInvalidPrice))
  /\ (forall policy cfg pay s r s',
         collection.purchase_access_encrypted derive_id c policy cfg pay s
         = Ok (r, s') ->
         forall cfg2 pay2 s2,
           collection.purchase_access derive_id c cfg2 pay2 s2
           = Err (Abort m_collection collection.EInvalidPrice)).
Proof.
  split.
  - intros cfg pay s c' s' H policy cfg2 pay2 s2.
    apply purchase_access_Ok in H as (Hd & _ & He & _).
    apply (purchase_access_encrypted_guards derive_id c policy cfg2 pay2 s2 Hd).
    auto.
  - intros policy cfg pay s [c' p'] s' H cfg2 pay2 s2.
    apply purchase_access_encrypted_Ok in H as (Hd & _ & He & _).
    apply (purchase_access_guards derive_id c cfg2 pay2 s2 Hd). auto.
Qed.

(** ** Deleting and the owner gate *)

Lemma delete_collection_run c s :
  collection.delete_collection c s
  = if bool_decide (collection.owner c = sender (ctx s))
    then if collection.is_deleted c
         then Err (Abort m_collection collection.ECollectionDeleted)
         else Ok (collection.set_is_deleted c true,
                  {| ctx := ctx s;
                     log := log s ++ [collection.Emit
                                        (collection.CollectionDeleted (collection.id c)
                                           (collection.owner c)
                                           (epoch_timestamp_ms (ctx s)))] |})
    else Err (Abort m_collection collection.ENotOwner).
Proof.
  unfold collection.delete_collection. run.
  destruct (bool_decide _); [run|reflexivity].
  destruct (collection.is_deleted c); reflexivity.
Qed.

Lemma update_collection_run c name description category tags visibility price s :
  collection.update_collection c name description category tags visibility price s
  = if bool_decide (collection.owner c = sender (ctx s))
    then if collection.is_deleted c
         then Err (Abort m_collection collection.ECollectionDeleted)
         else Ok (collection.set_metadata c name description category tags
                    visibility price,
                  {| ctx := ctx s;
                     log := log s ++ [collection.Emit
                                        (collection.CollectionUpdated (collection.id c)
                                           name description visibility price)] |})
    else Err (Abort m_collection collection.ENotOwner).
Proof.
  unfold collection.update_collection. run.
  destruct (bool_decide _); [run|reflexivity].
  destruct (collection.is_deleted c); reflexivity.
Qed.

(** X19: [delete_collection] by the owner of a live collection succeeds,
    sets [is_deleted] and changes no other field; afterwards [has_access]
    is false for everyone, the owner included, and so is the collection's
    [can_decrypt], whatever the policy says. *)
Theorem delete_collection_closes (c : collection.Collection)
    (s : env collection.effect) :
  collection.owner c = sender (ctx s) ->
  collection.is_deleted c = false ->
  exists s',
    collection.delete_collection c s = Ok (collection.set_is_deleted c true, s')
    /\ forall policy user now,
         collection.has_access (collection.set_is_deleted c true) user now = false
         /\ collection.can_decrypt (collection.set_is_deleted c true) policy user now
            = false.
Proof.
  intros Ho Hd. rewrite delete_collection_run, bool_decide_eq_true_2, Hd by exact Ho.
  eexists. split; [reflexivity|]. intros policy user now.
  unfold collection.can_decrypt, collection.has_access. simpl.
  destruct (collection.is_encrypted c); auto.
Qed.

Lemma delete_collection_closes_witness :
  exists s',
    collection.delete_collection sample_collection (sample_env alice)
    = Ok (deleted_collection, s')
    /\ collection.has_access deleted_collection alice 2000 = false.
Proof.
  destruct (delete_collection_closes sample_collection (sample_env alice)
              eq_refl eq_refl) as (s' & Hrun & Hclosed).
  exists s'. split; [exact Hrun|]. exact (proj1 (Hclosed linked_policy alice 2000)).
Defined.

(** X20: [update_collection] and [delete_collection] check the caller
    before the deletion flag: for a caller other than the owner both abort
    with [ENotOwner], on a live and on a deleted collection alike. *)
Theorem owner_gate_comes_first (c : collection.Collection)
    (s : env collection.effect) :
  collection.owner c <> sender (ctx s) ->
  (forall name description category tags visibility price,
      collection.update_collection c name description category tags visibility
        price s
      = Err (Abort m_collection collection.ENotOwner))
  /\ collection.delete_collection c s
     = Err (Abort m_collection collection.ENotOwner).
Proof.
  intros Ho. split; [intros|].
  - rewrite update_collection_run, bool_decide_eq_false_2 by exact Ho. reflexivity.
  - rewrite delete_collection_run, bool_decide_eq_false_2 by exact Ho. reflexivity.
Qed.

Lemma owner_gate_comes_first_witness :
  collection.update_collection sample_collection [78] [68] [67] [[84]]
    collection.VISIBILITY_PUBLIC 0 (sample_env bob)
  = Err (Abort m_collection collection.ENotOwner)
  /\ collection.delete_collection deleted_collection (sample_env bob)
     = Err (Abort m_collection collection.ENotOwner).
Proof.
  split.
  - apply (owner_gate_comes_first sample_collection (sample_env bob)).
    discriminate.
  - apply (owner_gate_comes_first deleted_collection (sample_env bob)).
    discriminate.
Defined.

(** ** What no call changes, and what only grows *)

Lemma run_collection_call_shape derive_id k c s c' s' :
  run_collection_call derive_id k c s = Ok (c', s') ->
  (exists name description category tags visibility price,
      c' = collection.set_metadata c name description category tags visibility price)
  \/ c' = collection.set_is_deleted c true
  \/ c' = collection.set_purchase_stats c
            (collection.total_earnings c + collection.price c)
            (collection.purchase_count c + 1)
  \/ (exists amount,
         c' = collection.set_tip_stats c (collection.total_tips c + amount)
                (collection.tip_count c + 1)).
Proof.
  destruct k as [n d cat tags v p | | cfg pay | policy cfg pay | cfg pay];
    simpl; intros H.
  - rewrite update_collection_run in H.
    destruct (bool_decide _); [|discriminate].
    destruct (collection.is_deleted c); [discriminate|].
    injection H as <- _. left. eauto 7.
  - rewrite delete_collection_run in H.
    destruct (bool_decide _); [|discriminate].
    destruct (collection.is_deleted c); [discriminate|].
    injection H as <- _. auto.
  - apply purchase_access_Ok in H as (_ & _ & _ & _ & _ & _ & ->). auto.
  - apply bind_Ok in H as ([c1 p1] & s1 & H & Hret).
    apply ret_Ok in Hret as [-> _].
    apply purchase_access_encrypted_Ok in H as (_ & _ & _ & _ & _ & _ & ->). auto.
  - apply tip_creator_Ok in H as (_ & _ & _ & ->). eauto 7.
Qed.

Lemma commit_all_invariant derive_id (P : collection.Collection -> collection.Collection -> Prop) :
  (forall c, P c c) ->
  (forall c k s c' s',
      run_collection_call derive_id k c s = Ok (c', s') ->
      forall c0, P c0 c -> P c0 c') ->
  forall txs c0 c, P c0 c -> P c0 (commit_all derive_id txs c).
Proof.
  intros Hrefl Hstep txs. unfold commit_all.
  induction txs as [|[k s] txs IH]; intros c0 c HP; simpl; [exact HP|].
  apply IH. unfold commit. simpl.
  destruct (run_collection_call derive_id k c s) as [[c' s']|] eqn:Hrun; [|exact HP].
  eapply Hstep; eauto.
Qed.

(** X21: whatever calls are made on a collection, by whomever, committed
    or aborted, its id, owner, creation time, file manifest, cover-image
    references, encryption flag, key hash and policy link stay as they
    were at creation. *)
Theorem collection_fixed_fields derive_id
    (txs : list (collection_call * env collection.effect))
    (c : collection.Collection) :
  let c' := commit_all derive_id txs c in
  collection.id c' = collection.id c
  /\ collection.owner c' = collection.owner c
  /\ collection.created_at c' = collection.created_at c
  /\ collection.files c' = collection.files c
  /\ collection.cover_image_blob_ids c' = collection.cover_image_blob_ids c
  /\ collection.is_encrypted c' = collection.is_encrypted c
  /\ collection.encryption_key_hash c' = collection.encryption_key_hash c
  /\ collection.access_policy_id c' = collection.access_policy_id c.
Proof.
  cbn zeta.
  apply (commit_all_invariant derive_id
           (fun c0 c1 =>
              collection.id c1 = collection.id c0
              /\ collection.owner c1 = collection.owner c0
              /\ collection.created_at c1 = collection.created_at c0
              /\ collection.files c1 = collection.files c0
              /\ collection.cover_image_blob_ids c1 = collection.cover_image_blob_ids c0
              /\ collection.is_encrypted c1 = collection.is_encrypted c0
              /\ collection.encryption_key_hash c1 = collection.encryption_key_hash c0
              /\ collection.access_policy_id c1 = collection.access_policy_id c0)).
  - intros. repeat split.
  - intros c1 k s c2 s2 Hrun c0 HP.
    apply run_collection_call_shape in Hrun
      as [(n & d & cat & tags & v & p & ->) | [-> | [-> | (a & ->)]]];
      exact HP.
  - repeat split.
Qed.

(** X22: under any sequence of calls the four statistics never decrease
    and a set deletion flag is never cleared. *)
Theorem statistics_never_decrease derive_id
    (txs : list (collection_call * env collection.effect))
    (c : collection.Collection) :
  let c' := commit_all derive_id txs c in
  collection.purchase_count c <= collection.purchase_count c'
  /\ collection.tip_count c <= collection.tip_count c'
  /\ collection.total_earnings c <= collection.total_earnings c'
  /\ collection.total_tips c <= collection.total_tips c'
  /\ (collection.is_deleted c = true -> collection.is_deleted c' = true).
Proof.
  cbn zeta.
  apply (commit_all_invariant derive_id
           (fun c0 c1 =>
              collection.purchase_count c0 <= collection.purchase_count c1
              /\ collection.tip_count c0 <= collection.tip_count c1
              /\ collection.total_earnings c0 <= collection.total_earnings c1
              /\ collection.total_tips c0 <= collection.total_tips c1
              /\ (collection.is_deleted c0 = true -> collection.is_deleted c1 = true))).
  - intros. repeat split; auto; lia.
  - intros c1 k s c2 s2 Hrun c0 (Hp & Ht & He & Hti & Hd).
    apply run_collection_call_shape in Hrun
      as [(n & d & cat & tags & v & p & ->) | [-> | [-> | (a & ->)]]];
      simpl; repeat split; auto; lia.
  - repeat split; auto; lia.
Qed.

(** X23: settlement touches its own counters only: a successful purchase
    returns the collection with [total_earnings] and [purchase_count]
    replaced and every other field, price and visibility included,
    unchanged; a successful tip replaces [total_tips] and [tip_count]
    only. *)
Theorem settlement_touches_own_counters derive_id (c : collection.Collection)
    (policy : access_policy.CollectionAccessPolicy)
    (cfg : collection.PlatformConfig) (pay : collection.Coin)
    (s : env collection.effect) :
  (forall c' s',
      collection.purchase_access derive_id c cfg pay s = Ok (c', s') ->
      c' = collection.set_purchase_stats c
             (collection.total_earnings c + collection.price c)
             (collection.purchase_count c + 1))
  /\ (forall c' policy' s',
         collection.purchase_access_encrypted derive_id c policy cfg pay s
         = Ok ((c', policy'), s') ->
         c' = collection.set_purchase_stats c
                (collection.total_earnings c + collection.price c)
                (collection.purchase_count c + 1))
  /\ (forall c' s',
         collection.tip_creator derive_id c cfg pay s = Ok (c', s') ->
         c' = collection.set_tip_stats c
                (collection.total_tips c + collection.coin_value pay)
                (collection.tip_count c + 1)).
Proof.
  split; [|split].
  - intros c' s' H. apply purchase_access_Ok in H. tauto.
  - intros c' p' s' H. apply purchase_access_encrypted_Ok in H. tauto.
  - intros c' s' H. apply tip_creator_Ok in H. tauto.
Qed.

(** ** The platform address *)

Lemma update_platform_address_run config new_address s :
  collection.update_platform_address config new_address s
  = if bool_decide (collection.platform_address config = sender (ctx s))
    then Ok ({| collection.config_id := collection.config_id config;
                collection.platform_address := new_address;
                collection.purchase_fee_bps := collection.purchase_fee_bps config;
                collection.tip_fee_bps := collection.tip_fee_bps config |}, s)
    else Err (Abort m_collection collection.ENotOwner).
Proof.
  unfold collection.update_platform_address. run.
  destruct (bool_decide _); reflexivity.
Qed.

Lemma update_platform_fees_run config purchase_fee_bps tip_fee_bps s :
  collection.update_platform_fees config purchase_fee_bps tip_fee_bps s
  = if bool_decide (collection.platform_address config = sender (ctx s))
    then Ok ({| collection.config_id := collection.config_id config;
                collection.platform_address := collection.platform_address config;
                collection.purchase_fee_bps := purchase_fee_bps;
                collection.tip_fee_bps := tip_fee_bps |}, s)
    else Err (Abort m_collection collection.ENotOwner).
Proof.
  unfold collection.update_platform_fees. run.
  destruct (bool_decide _); reflexivity.
Qed.

(** X24: the fee configuration is gated on its platform address: any other
    caller of [update_platform_address] or [update_platform_fees] gets
    [ENotOwner].  The holder can pass the address on; this keeps both
    rates and emits nothing, and from then on the new address can change
    the configuration while the old one, if different, gets [ENotOwner]. *)
Theorem update_platform_address_hands_over (config : collection.PlatformConfig)
    (new_address : address) (s : env collection.effect) :
  (collection.platform_address config <> sender (ctx s) ->
   collection.update_platform_address config new_address s
   = Err (Abort m_collection collection.ENotOwner)
   /\ forall purchase_fee_bps tip_fee_bps,
        collection.update_platform_fees config purchase_fee_bps tip_fee_bps s
        = Err (Abort m_collection collection.ENotOwner))
  /\ (collection.platform_address config = sender (ctx s) ->
      exists config',
        collection.update_platform_address config new_address s = Ok (config', s)
        /\ collection.platform_address config' = new_address
        /\ collection.purchase_fee_bps config' = collection.purchase_fee_bps config
        /\ collection.tip_fee_bps config' = collection.tip_fee_bps config
        /\ collection.config_id config' = collection.config_id config
        /\ (forall s2 a b,
              sender (ctx s2) = new_address ->
              exists config2,
                collection.update_platform_fees config' a b s2 = Ok (config2, s2)
                /\ collection.purchase_fee_bps config2 = a
                /\ collection.tip_fee_bps config2 = b
                /\ collection.platform_address config2 = new_address)
        /\ (collection.platform_address config <> new_address ->
            forall s2 a b back,
              sender (ctx s2) = collection.platform_address config ->
              collection.update_platform_fees config' a b s2
              = Err (Abort m_collection collection.ENotOwner)
              /\ collection.update_platform_address config' back s2
                 = Err (Abort m_collection collection.ENotOwner))).
Proof.
  split; intros Ho.
  - rewrite update_platform_address_run, bool_decide_eq_false_2 by exact Ho.
    split; [reflexivity|]. intros a b.
    rewrite update_platform_fees_run, bool_decide_eq_false_2 by exact Ho.
    reflexivity.
  - rewrite update_platform_address_run, bool_decide_eq_true_2 by exact Ho.
    eexists. split; [reflexivity|]. simpl. repeat (split; [reflexivity|]). split.
    + intros s2 a b Hs2. rewrite update_platform_fees_run. simpl.
      rewrite bool_decide_eq_true_2 by congruence. eexists.
      split; [reflexivity|]. simpl. auto.
    + intros Hne s2 a b back Hs2.
      rewrite update_platform_fees_run, update_platform_address_run. simpl.
      rewrite !bool_decide_eq_false_2 by congruence. auto.
Qed.

Lemma update_platform_address_hands_over_witness :
  exists config',
    collection.update_platform_address sample_config bob (sample_env platform)
    = Ok (config', sample_env platform)
    /\ collection.platform_address config' = bob
    /\ collection.update_platform_fees config' 0 0 (sample_env platform)
       = Err (Abort m_collection collection.ENotOwner).
Proof.
  destruct (update_platform_address_hands_over sample_config bob
              (sample_env platform)) as [_ H].
  destruct (H eq_refl) as (cfg' & Hrun & Ha & _ & _ & _ & _ & Hlock).
  exists cfg'. split; [exact Hrun|]. split; [exact Ha|].
  exact (proj1 (Hlock ltac:(discriminate) (sample_env platform) 0 0 platform eq_refl)).
Defined.

(** ** What creation leaves on chain *)

Lemma shared_policies_snoc l e :
  shared_policies (l ++ [e])
  = shared_policies l
    ++ match e with
       | collection.Policy (access_policy.Share p) => [p]
       | _ => []
       end.
Proof.
  unfold shared_policies. rewrite omap_app.
  destruct e as [[?|?]| | | | |]; reflexivity.
Qed.

(** X25: [create_collection], given per-file arrays at least as long as
    [blob_ids], shares one collection owned by the caller, carrying the
    metadata, visibility and price passed in (no value of either is
    refused), with all four statistics at zero and not deleted.  When
    [is_encrypted] is set it also shares one new policy: owned by the
    caller, without entries, linked to the new collection, which in turn
    records the policy's id; otherwise no policy is shared and the
    collection has no policy link. *)
Theorem create_collection_result derive_id
    (name description category : list u8) (tags covers : list (list u8))
    (blob_ids file_names content_types : list (list u8))
    (file_sizes : list u64) (is_encrypted_flags : list bool)
    (visibility : u8) (price : u64) (is_encrypted : bool) (key_hash : list u8)
    (s : env collection.effect) :
  (length blob_ids <= length file_names
   /\ length blob_ids <= length content_types
   /\ length blob_ids <= length file_sizes
   /\ length blob_ids <= length is_encrypted_flags)%nat ->
  exists c s',
    collection.create_collection derive_id name description category tags covers
      blob_ids file_names content_types file_sizes is_encrypted_flags
      visibility price is_encrypted key_hash s = Ok (tt, s')
    /\ shared_collections (log s') = shared_collections (log s) ++ [c]
    /\ collection.id c = derive_id (tx_hash (ctx s)) (ids_created (ctx s))
    /\ collection.owner c = sender (ctx s)
    /\ collection.created_at c = epoch_timestamp_ms (ctx s)
    /\ collection.name c = name
    /\ collection.description c = description
    /\ collection.category c = category
    /\ collection.tags c = tags
    /\ collection.cover_image_blob_ids c = covers
    /\ collection.visibility c = visibility
    /\ collection.price c = price
    /\ collection.is_encrypted c = is_encrypted
    /\ collection.encryption_key_hash c = key_hash
    /\ collection.purchase_count c = 0
    /\ collection.tip_count c = 0
    /\ collection.total_earnings c = 0
    /\ collection.total_tips c = 0
    /\ collection.is_deleted c = false
    /\ if is_encrypted
       then exists p,
           shared_policies (log s') = shared_policies (log s) ++ [p]
           /\ collection.access_policy_id c = Some (access_policy.id p)
           /\ access_policy.collection_id p = Some (collection.id c)
           /\ access_policy.id p
              = derive_id (tx_hash (ctx s)) (ids_created (ctx s) + 1)
           /\ access_policy.owner p = sender (ctx s)
           /\ access_policy.authorized_users p = ∅
           /\ access_policy.total_authorized p = 0
       else shared_policies (log s') = shared_policies (log s)
            /\ collection.access_policy_id c = None.
Proof.
  intros (Hn & Ht & Hs & He). unfold collection.create_collection.
  unfold bind at 1. rewrite collect_files_Ok by assumption.
  destruct is_encrypted.
  - eexists _, _. split; [reflexivity|]. simpl.
    rewrite !shared_collections_snoc, !shared_policies_snoc. simpl.
    rewrite !app_nil_r. repeat (split; [reflexivity|]).
    eexists. repeat (split; [reflexivity|]). reflexivity.
  - eexists _, _. split; [reflexivity|]. simpl.
    rewrite !shared_collections_snoc, !shared_policies_snoc. simpl.
    rewrite !app_nil_r. repeat (split; [reflexivity|]). split; reflexivity.
Qed.

Lemma create_collection_result_witness :
  exists c s',
    collection.create_collection sample_derive_id [110] [] [] [] []
      [[3]] [[1]] [[2]] [5] [true] 77 0 true [] (sample_env alice) = Ok (tt, s')
    /\ shared_collections (log s') = [c]
    /\ collection.visibility c = 77
    /\ collection.access_policy_id c = Some [7; 1].
Proof.
  destruct (create_collection_result sample_derive_id [110] [] [] [] []
              [[3]] [[1]] [[2]] [5] [true] 77 0 true [] (sample_env alice))
    as (c & s' & Hrun & Hshared & _ & _ & _ & _ & _ & _ & _ & _ & Hv & _ & _ & _
        & _ & _ & _ & _ & _ & p & _ & Hlink & _ & Hid & _);
    [simpl; lia|].
  exists c, s'. split; [exact Hrun|]. split; [exact Hshared|].
  split; [exact Hv|]. rewrite Hlink, Hid. reflexivity.
Defined.

(** X26: [create_collection_with_policy], given per-file arrays at least
    as long as [blob_ids], shares one collection owned by the caller that
    records the id of the policy passed in, whether or not [is_encrypted]
    is set, and returns that policy linked to the new collection.  The
    caller need not own the policy: nothing of the policy is read but its
    id. *)
Theorem create_collection_with_policy_result derive_id
    (name description category : list u8) (tags covers : list (list u8))
    (blob_ids file_names content_types : list (list u8))
    (file_sizes : list u64) (is_encrypted_flags : list bool)
    (visibility : u8) (price : u64) (is_encrypted : bool) (key_hash : list u8)
    (policy : access_policy.CollectionAccessPolicy)
    (s : env collection.effect) :
  (length blob_ids <= length file_names
   /\ length blob_ids <= length content_types
   /\ length blob_ids <= length file_sizes
   /\ length blob_ids <= length is_encrypted_flags)%nat ->
  exists c policy' s',
    collection.create_collection_with_policy derive_id name description category
      tags covers blob_ids file_names content_types file_sizes
      is_encrypted_flags visibility price is_encrypted key_hash policy s
    = Ok (policy', s')
    /\ shared_collections (log s') = shared_collections (log s) ++ [c]
    /\ shared_policies (log s') = shared_policies (log s)
    /\ collection.owner c = sender (ctx s)
    /\ collection.is_encrypted c = is_encrypted
    /\ collection.access_policy_id c = Some (access_policy.id policy)
    /\ collection.files c
       = manifest blob_ids file_names content_types file_sizes is_encrypted_flags
    /\ access_policy.collection_id policy' = Some (collection.id c)
    /\ access_policy.is_linked policy' = true.
Proof.
  intros (Hn & Ht & Hs & He). unfold collection.create_collection_with_policy.
  unfold bind at 1. rewrite collect_files_Ok by assumption.
  eexists _, _, _. split; [reflexivity|]. simpl.
  rewrite !shared_collections_snoc, !shared_policies_snoc. simpl.
  rewrite !app_nil_r. repeat (split; [reflexivity|]). reflexivity.
Qed.

Lemma create_collection_with_policy_result_witness :
  exists c policy' s',
    collection.create_collection_with_policy sample_derive_id [] [] [] [] []
      [] [] [] [] [] 0 0 false [] other_policy (sample_env alice)
    = Ok (policy', s')
    /\ shared_collections (log s') = [c]
    /\ collection.owner c = alice
    /\ access_policy.owner policy' = bob
    /\ collection.is_encrypted c = false
    /\ collection.access_policy_id c = Some [8].
Proof.
  destruct (create_collection_with_policy_result sample_derive_id [] [] [] [] []
              [] [] [] [] [] 0 0 false [] other_policy (sample_env alice))
    as (c & p' & s' & Hrun & Hshared & _ & Ho & He & Hp & _);
    [simpl; lia|].
  exists c, p', s'. split; [exact Hrun|]. split; [exact Hshared|].
  split; [exact Ho|]. split; [|split; [exact He | exact Hp]].
  vm_compute in Hrun. injection Hrun as <- _. reflexivity.
Defined.

(** X27: [create_standalone_policy] always succeeds and shares one policy:
    not linked, owned by the caller, without entries and with a zero
    counter, so that only the caller passes its [can_decrypt]; linking it
    later changes neither who can decrypt nor the owner. *)
Theorem create_standalone_policy_result derive_id (s : env access_policy.effect) :
  exists p s',
    access_policy.create_standalone_policy derive_id s = Ok (tt, s')
    /\ shared_standalone (log s') = shared_standalone (log s) ++ [p]
    /\ access_policy.id p = derive_id (tx_hash (ctx s)) (ids_created (ctx s))
    /\ access_policy.is_linked p = false
    /\ access_policy.owner p = sender (ctx s)
    /\ access_policy.total_authorized p = 0
    /\ (forall who, access_policy.has_explicit_access p who = false)
    /\ (forall who, access_policy.can_decrypt p who = true <-> who = sender (ctx s))
    /\ forall collection_id s1,
         exists p1 s1',
           access_policy.link_to_collection p collection_id s1 = Ok (p1, s1')
           /\ access_policy.is_linked p1 = true
           /\ access_policy.owner p1 = sender (ctx s)
           /\ forall who, access_policy.can_decrypt p1 who
                          = access_policy.can_decrypt p who.
Proof.
  unfold access_policy.create_standalone_policy. run.
  eexists _, _. split; [reflexivity|]. simpl.
  unfold shared_standalone. rewrite omap_app. simpl.
  do 5 (split; [reflexivity|]). split; [|split].
  - intros who. unfold access_policy.has_explicit_access, table_contains. simpl.
    apply bool_decide_eq_false_2. rewrite lookup_empty. intros [? ?]; discriminate.
  - intros who. rewrite can_decrypt_spec. simpl. rewrite lookup_empty.
    split; [intros [?|[? ?]]; [assumption | discriminate] | auto].
  - intros cid s1. rewrite link_to_collection_Ok. eexists _, _.
    split; [reflexivity|]. repeat split.
Qed.

(** ** More on revoking and on buying twice *)

(** X28: a successful [revoke_access] is made by the owner on a user with
    an entry; it removes that entry and no other, lowers
    [total_authorized] by one and keeps id, owner and link. *)
Theorem revoke_access_effect policy user s policy' s' :
  access_policy.revoke_access policy user s = Ok (policy', s') ->
  access_policy.owner policy = sender (ctx s)
  /\ access_policy.has_explicit_access policy user = true
  /\ access_policy.has_explicit_access policy' user = false
  /\ (forall other, other <> user ->
        access_policy.has_explicit_access policy' other
        = access_policy.has_explicit_access policy other)
  /\ access_policy.total_authorized policy'
     = access_policy.total_authorized policy - 1
  /\ 1 <= access_policy.total_authorized policy
  /\ access_policy.id policy' = access_policy.id policy
  /\ access_policy.owner policy' = access_policy.owner policy
  /\ access_policy.collection_id policy' = access_policy.collection_id policy.
Proof.
  intros H. unfold access_policy.revoke_access in H. inv_run H.
  apply ret_Ok in H as [-> _]. apply bool_decide_eq_true in Hm.
  apply sub_u64_Ok in Hm2 as [-> Hpos].
  unfold table_remove in Hm1. pose proof Hm0 as Hin.
  apply table_contains_true in Hm0 as [v Hv]. rewrite Hv in Hm1.
  injection Hm1 as <-. unfold access_policy.has_explicit_access. simpl.
  split; [exact Hm|]. split; [exact Hin|]. split; [|split].
  - rewrite table_contains_delete, bool_decide_eq_true_2 by reflexivity.
    reflexivity.
  - intros other Hne. rewrite table_contains_delete.
    rewrite bool_decide_eq_false_2 by congruence. reflexivity.
  - repeat split. exact Hpos.
Qed.

Lemma revoke_access_effect_witness :
  exists policy' s',
    access_policy.revoke_access owner_listed_policy alice (sample_env alice)
    = Ok (policy', s')
    /\ access_policy.has_explicit_access policy' alice = false
    /\ access_policy.total_authorized policy' = 0.
Proof.
  eexists _, _. split; [vm_compute; reflexivity|].
  edestruct (revoke_access_effect owner_listed_policy alice (sample_env alice))
    as (_ & _ & Hgone & _ & Ht & _); [vm_compute; reflexivity|].
  split; [exact Hgone | exact Ht].
Defined.

(** X29: a buyer who already has an entry in the policy is not refused:
    a further [purchase_access_encrypted] that succeeds charges the price
    again (the owner is sent the price less the fee, the platform address
    the fee floor(price * purchase_fee_bps / 10000), the two adding up to
    the price), raises [purchase_count] and [total_earnings] again, hands
    out another token, and returns the policy as it was. *)
Theorem repeat_purchase_charges_again derive_id c policy cfg pay s c' policy' s' :
  access_policy.has_explicit_access policy (sender (ctx s)) = true ->
  collection.purchase_access_encrypted derive_id c policy cfg pay s
  = Ok ((c', policy'), s') ->
  policy' = policy
  /\ collection.purchase_count c' = collection.purchase_count c + 1
  /\ collection.total_earnings c' = collection.total_earnings c + collection.price c
  /\ length (token_transfers (log s')) = S (length (token_transfers (log s)))
  /\ coin_transfers (log s')
     = coin_transfers (log s)
       ++ [(collection.owner c,
            collection.price c
            - collection.price c * collection.purchase_fee_bps cfg / 10000);
           (collection.platform_address cfg,
            collection.price c * collection.purchase_fee_bps cfg / 10000)]
       ++ (if 0 <? collection.coin_value pay - collection.price c
           then [(sender (ctx s), collection.coin_value pay - collection.price c)]
           else [])
  /\ (collection.price c
      - collection.price c * collection.purchase_fee_bps cfg / 10000)
     + collection.price c * collection.purchase_fee_bps cfg / 10000
     = collection.price c.
Proof.
  unfold access_policy.has_explicit_access. intros Hin H.
  pose proof (purchase_access_encrypted_inv _ _ _ _ _ _ _ _ _ H)
    as [(sp & sp' & Hg) Htok].
  apply purchase_access_encrypted_Ok in H as (_ & _ & _ & _ & Hfee & Ht & ->).
  rewrite grant_access_present in Hg by exact Hin. injection Hg as <- _.
  split; [reflexivity|]. split; [reflexivity|]. split; [reflexivity|].
  split; [|split].
  - rewrite Htok, length_app. simpl. lia.
  - exact Ht.
  - apply N.sub_add. exact Hfee.
Qed.

Lemma repeat_purchase_charges_again_witness :
  exists c2 policy2 s2,
    collection.purchase_access_encrypted sample_derive_id
      (collection.set_purchase_stats encrypted_collection 1000 1)
      bob_listed_policy sample_config (sample_coin 1000) (sample_env bob)
    = Ok ((c2, policy2), s2)
    /\ policy2 = bob_listed_policy
    /\ collection.purchase_count c2 = 2
    /\ collection.total_earnings c2 = 2000.
Proof.
  destruct (purchase_access_encrypted_succeeds sample_derive_id
              (collection.set_purchase_stats encrypted_collection 1000 1)
              bob_listed_policy sample_config (sample_coin 1000) (sample_env bob))
    as ([c2 p2] & s2 & Hrun);
    try reflexivity; try (vm_compute; discriminate); [left; reflexivity|].
  exists c2, p2, s2. split; [exact Hrun|].
  destruct (repeat_purchase_charges_again sample_derive_id
              (collection.set_purchase_stats encrypted_collection 1000 1)
              bob_listed_policy sample_config (sample_coin 1000) (sample_env bob)
              c2 p2 s2 eq_refl Hrun)
    as (Hp & Hc & He & _).
  split; [exact Hp|]. split; [exact Hc | exact He].
Defined.

(** ** Revocation and what follows it *)

Lemma create_collection_with_policy_inv derive_id
    (name description category : list u8) (tags covers : list (list u8))
    (blob_ids file_names content_types : list (list u8))
    (file_sizes : list u64) (is_encrypted_flags : list bool)
    (visibility : u8) (price : u64) (is_encrypted : bool) (key_hash : list u8)
    (policy : access_policy.CollectionAccessPolicy)
    (s : env collection.effect) policy' s' :
  collection.create_collection_with_policy derive_id name description category
    tags covers blob_ids file_names content_types file_sizes
    is_encrypted_flags visibility price is_encrypted key_hash policy s
  = Ok (policy', s') ->
  exists collection_id,
    policy' = access_policy.set_collection_id policy (Some collection_id).
Proof.
  unfold collection.create_collection_with_policy. unfold bind at 1.
  destruct (collection.collect_files _ _ _ _ _ _ s) as [[files s1]|];
    [|discriminate].
  intros H. simpl in H. injection H as <- _. eexists. reflexivity.
Qed.

(** A committed transaction that does not restore access to [who] keeps
    [who] without an entry and away from the ownership. *)
Lemma no_access_call who call policy s policy' s' :
  ~ restores_access who (Registry call s) ->
  run_policy_call call policy s = Ok (policy', s') ->
  access_policy.owner policy <> who
  /\ access_policy.authorized_users policy !! who = None ->
  access_policy.owner policy' <> who
  /\ access_policy.authorized_users policy' !! who = None.
Proof.
  intros Hno H [Ho Hu].
  destruct call as [u | us | u | us | n | cid]; simpl in Hno, H.
  - apply grant_access_inv in H as [(_ & -> & _) | (_ & _ & -> & _)]; [auto|].
    simpl. split; [exact Ho|]. rewrite lookup_insert_ne by exact Hno. exact Hu.
  - rewrite grant_access_batch_for_each in H.
    apply for_each_grant_members in H as (Hmem & Hov & _).
    split; [congruence|]. apply table_contains_false.
    destruct (table_contains (access_policy.authorized_users policy') who) eqn:Hin;
      [|reflexivity].
    apply Hmem in Hin as [Hin|Hin]; [|contradiction].
    unfold access_policy.has_explicit_access in Hin.
    apply table_contains_false in Hu. congruence.
  - apply revoke_access_Ok in H as (_ & _ & Hov & Huv & _).
    split; [congruence|]. rewrite Huv. apply lookup_delete_None. auto.
  - rewrite revoke_access_batch_for_each in H.
    destruct (bool_decide _); [|discriminate].
    apply for_each_revoke_members in H as (Hmem & Hov & _).
    split; [congruence|]. apply table_contains_false.
    destruct (table_contains (access_policy.authorized_users policy') who) eqn:Hin;
      [|reflexivity].
    apply Hmem in Hin as [Hin _].
    unfold access_policy.has_explicit_access in Hin.
    apply table_contains_false in Hu. congruence.
  - rewrite transfer_ownership_run in H.
    destruct (bool_decide _); [|discriminate].
    injection H as <- _. simpl. auto.
  - rewrite link_to_collection_Ok in H. injection H as <- _. simpl. auto.
Qed.

Lemma no_access_step derive_id who tx policy :
  ~ restores_access who tx ->
  access_policy.owner policy <> who
  /\ access_policy.authorized_users policy !! who = None ->
  access_policy.owner (commit_policy derive_id policy tx) <> who
  /\ access_policy.authorized_users (commit_policy derive_id policy tx) !! who
     = None.
Proof.
  intros Hno Hinv.
  destruct tx as [call s | c cfg pay s
                 | n d cat tags covers bl fn ct fs ef v pr enc kh s];
    unfold commit_policy.
  - destruct (run_policy_call call policy s) as [[p' s']|] eqn:Hrun;
      [|exact Hinv].
    eapply no_access_call; eauto.
  - destruct (collection.purchase_access_encrypted derive_id c policy cfg pay s)
      as [[[c' p'] s']|] eqn:Hrun; [|exact Hinv].
    apply purchase_access_encrypted_inv in Hrun as [(sp & sp' & Hg) _].
    apply (no_access_call who (Grant (sender (ctx s))) policy sp p' sp');
      [exact Hno | exact Hg | exact Hinv].
  - destruct (collection.create_collection_with_policy _ _ _ _ _ _ _ _ _ _ _ _ _ _ _ _ s)
      as [[p' s']|] eqn:Hrun; [|exact Hinv].
    apply create_collection_with_policy_inv in Hrun as [cid ->]. exact Hinv.
Qed.

Lemma no_access_kept derive_id who txs :
  forall policy,
    Forall (fun tx => ~ restores_access who tx) txs ->
    access_policy.owner policy <> who
    /\ access_policy.authorized_users policy !! who = None ->
    access_policy.owner (commit_policy_all derive_id txs policy) <> who
    /\ access_policy.authorized_users (commit_policy_all derive_id txs policy)
       !! who = None.
Proof.
  unfold commit_policy_all.
  induction txs as [|tx txs IH]; intros policy Hall Hinv; simpl; [exact Hinv|].
  apply Forall_cons in Hall as [Hc Hall]. apply IH; [exact Hall|].
  apply no_access_step; assumption.
Qed.

Lemma no_access_cannot_decrypt policy who :
  access_policy.owner policy <> who ->
  access_policy.authorized_users policy !! who = None ->
  access_policy.can_decrypt policy who = false.
Proof.
  intros Ho Hu. unfold access_policy.can_decrypt.
  rewrite bool_decide_eq_false_2 by congruence.
  apply table_contains_false in Hu. rewrite Hu. reflexivity.
Qed.

(** The two exclusions are needed: after the revoke of bob, a transfer of
    the ownership to bob, or a purchase sent by bob, lets him decrypt
    again. *)
Lemma later_transfer_or_purchase_restores :
  access_policy.can_decrypt
    (commit_policy_all sample_derive_id
       [Registry (TransferOwnership bob) (sample_env alice)] linked_policy) bob
  = true
  /\ access_policy.can_decrypt
       (commit_policy_all sample_derive_id
          [Bought encrypted_collection sample_config (sample_coin 1000)
             (sample_env bob)] linked_policy) bob
     = true.
Proof. split; vm_compute; reflexivity. Qed.

(** C7 (amended): a successful [revoke_access policy p] removes the entry
    of [p], the owner's included.  When [p] is not the policy owner, the
    registry's [can_decrypt] is then false for [p], and it stays false
    after any later sequence of transactions on the policy, committed or
    aborted, none of which grants [p] again (alone or in a batch), is a
    purchase sent by [p], or transfers the ownership to [p]; access tokens
    are never looked at.  When [p] is the owner, [can_decrypt] stays true
    for [p], as the owner can always decrypt. *)
Theorem revoked_non_owner_cannot_decrypt derive_id policy p s policy' s' :
  access_policy.revoke_access policy p s = Ok (policy', s') ->
  access_policy.authorized_users policy' !! p = None
  /\ access_policy.has_explicit_access policy' p = false
  /\ (p = access_policy.owner policy ->
      access_policy.can_decrypt policy' p = true)
  /\ (p <> access_policy.owner policy ->
      access_policy.can_decrypt policy' p = false
      /\ forall later,
           Forall (fun tx => ~ restores_access p tx) later ->
           access_policy.can_decrypt
             (commit_policy_all derive_id later policy') p = false).
Proof.
  intros H. apply revoke_access_Ok in H as (_ & _ & Ho & Hu & _).
  assert (Hgone : access_policy.authorized_users policy' !! p = None).
  { rewrite Hu. apply lookup_delete_eq. }
  split; [exact Hgone|]. split; [apply table_contains_false; exact Hgone|]. split.
  - intros Hp. unfold access_policy.can_decrypt.
    rewrite bool_decide_eq_true_2 by congruence. reflexivity.
  - intros Hp.
    assert (Hown : access_policy.owner policy' <> p) by congruence.
    split; [apply no_access_cannot_decrypt; assumption|].
    intros later Hlater.
    destruct (no_access_kept derive_id p later policy' Hlater (conj Hown Hgone))
      as [Ho' Hu'].
    apply no_access_cannot_decrypt; assumption.
Qed.

(** Bob bought access and alice revokes him; carol then buys access, alice
    hands the policy to carol, and carol revokes bob once more. *)
Lemma revoked_non_owner_cannot_decrypt_witness :
  access_policy.can_decrypt bob_listed_policy bob = true
  /\ access_policy.revoke_access bob_listed_policy bob (sample_env alice)
     = Ok (linked_policy,
           {| ctx := sample_ctx alice;
              log := [access_policy.Emit (access_policy.AccessRevoked [9] bob 1000)] |})
  /\ access_policy.can_decrypt linked_policy bob = false
  /\ access_policy.can_decrypt
       (commit_policy_all sample_derive_id
          [Bought encrypted_collection sample_config (sample_coin 1000)
             (sample_env carol);
           Registry (TransferOwnership carol) (sample_env alice);
           Registry (RevokeBatch [bob]) (sample_env carol)]
          linked_policy) bob = false
  /\ access_policy.can_decrypt
       (commit_policy_all sample_derive_id
          [Bought encrypted_collection sample_config (sample_coin 1000)
             (sample_env carol);
           Registry (TransferOwnership carol) (sample_env alice);
           Registry (RevokeBatch [bob]) (sample_env carol)]
          linked_policy) carol = true.
Proof.
  assert (Hrun : access_policy.revoke_access bob_listed_policy bob (sample_env alice)
                 = Ok (linked_policy,
                       {| ctx := sample_ctx alice;
                          log := [access_policy.Emit
                                    (access_policy.AccessRevoked [9] bob 1000)] |}))
    by (vm_compute; reflexivity).
  split; [reflexivity|]. split; [exact Hrun|].
  destruct (revoked_non_owner_cannot_decrypt sample_derive_id _ _ _ _ _ Hrun)
    as (_ & _ & _ & Hother).
  destruct (Hother ltac:(discriminate)) as [Hnow Hlater].
  split; [exact Hnow|]. split; [|vm_compute; reflexivity]. apply Hlater.
  repeat constructor; simpl; try discriminate; tauto.
Defined.
